(** * syamfp: a formula parser built on the Shunting-Yard algorithm

    Shallow embedding of [include/syamfp.hpp]: the symbol registry
    ([RESERVED_TOKEN]), the tokenizer ([devide_to_tokens]), the postfix
    converter ([make_rpn]), the compiler ([compile_RPN]) and the formula
    handle ([Syamfp]), followed by the properties checked against them.

    Conventions of the embedding.
    - The template parameter [Type] is a Rocq type [T] with a [MathConcept]
      instance; [ValueType] ([double]) is read through the rationals: a
      literal is parsed to the rational it denotes and [of_value] stands for
      "round to [double], then [static_cast<Type>]".
    - C++ [int] is [Z]; signed overflow is outside the model.
    - Exceptions and undefined behaviour are explicit outcomes of the
      [result] type.
    - A [std::vector] or [std::deque] used as an output sequence grows at
      the right end of a list; one used as a stack keeps its [back()] at the
      head of the list.
    - The process-wide registry is threaded explicitly as [reg]. *)

From Stdlib Require Import Ascii String QArith Qreals Reals Lra.
From stdpp Require Import gmap strings list fin_maps.

#[local] Open Scope string_scope.
#[local] Open Scope list_scope.
#[local] Open Scope Z_scope.

(** ** Outcomes: values, C++ exceptions, undefined behaviour *)

Inductive exn : Type :=
| out_of_range
| length_error
| invalid_argument (what : string)
| runtime_error (what : string).

Inductive result (A : Type) : Type :=
| Ok (a : A)
| Throw (e : exn)
| Undefined.
Arguments Ok {A} a.
Arguments Throw {A} e.
Arguments Undefined {A}.

#[global] Instance result_ret : MRet result := fun _ a => Ok a.
#[global] Instance result_bind : MBind result := fun _ _ k r =>
  match r with
  | Ok a => k a
  | Throw e => Throw e
  | Undefined => Undefined
  end.

#[global] Instance result_fmap : FMap result := fun _ _ f r =>
  match r with
  | Ok a => Ok (f a)
  | Throw e => Throw e
  | Undefined => Undefined
  end.

(** ** Details::TokenType

    [Variable] is a reserved word of Rocq, hence [Variable_]. *)

Inductive TokenType : Type :=
| Variable_ | Constant | Real | Imaginary | Operator
| Func1 | Func2 | Func3 | LParen | RParen | Comma.

#[global] Instance TokenType_eq_dec : EqDecision TokenType.
Proof. solve_decision. Defined.

(** The constants of [<numbers>] used by the registry. *)
Inductive numbers : Type :=
| pi_v | inv_pi_v | inv_sqrtpi_v | e_v | sqrt2_v | sqrt3_v
| ln2_v | ln10_v | log2e_v | log10e_v | egamma_v | phi_v.

(** ** Details::MathConcept

    The operations the concept requires of [Type], together with the
    conversions from [ValueType] the header relies on.  [val_uninit] is the
    content of the local [ValueType val] of [Token(const std::string&)] when
    [std::from_chars] leaves it unset; [value_eqb] is [operator==] on [Type].
    The only law is that the converted literal [0] compares equal to
    itself, as it does for [double] and [std::complex<double>]. *)

Class MathConcept (T : Type) : Type := {
  of_value : Q -> T;
  of_imag : Q -> T;
  of_number : numbers -> T;
  val_uninit : Q;
  value_eqb : T -> T -> bool;
  m_sin : T -> T;  m_cos : T -> T;  m_tan : T -> T;
  m_asin : T -> T; m_acos : T -> T; m_atan : T -> T;
  m_sinh : T -> T; m_cosh : T -> T; m_tanh : T -> T;
  m_asinh : T -> T; m_acosh : T -> T; m_atanh : T -> T;
  m_exp : T -> T;  m_log : T -> T;  m_log10 : T -> T;
  m_sqrt : T -> T;
  m_pow : T -> T -> T;
  m_add : T -> T -> T;
  m_sub : T -> T -> T;
  m_mul : T -> T -> T;
  m_div : T -> T -> T;
  zero_eqb_zero : value_eqb (of_value 0%Q) (of_value 0%Q) = true
}.

(** ** Literal recognition: [is_real], [is_imaginary], [std::from_chars] *)

Definition is_digit (c : ascii) : bool :=
  let n := nat_of_ascii c in (48 <=? n)%nat && (n <=? 57)%nat.

(** [std::isspace] in the "C" locale. *)
Definition isspace (c : ascii) : bool :=
  let n := nat_of_ascii c in
  (n =? 32)%nat || ((9 <=? n)%nat && (n <=? 13)%nat).

Definition is_sign (c : ascii) : bool :=
  Ascii.eqb c "+" || Ascii.eqb c "-".

Definition is_e (c : ascii) : bool :=
  Ascii.eqb c "e" || Ascii.eqb c "E".

(** The longest run of digits at the front, and what follows it. *)
Fixpoint span_digits (l : list ascii) : list ascii * list ascii :=
  match l with
  | c :: r =>
      if is_digit c
      then let '(ds, rest) := span_digits r in (c :: ds, rest)
      else ([], l)
  | [] => ([], [])
  end.

Definition nonempty {A} (l : list A) : bool :=
  match l with [] => false | _ => true end.

(** [[+-]?] *)
Definition opt_sign (l : list ascii) : list ascii :=
  match l with
  | c :: r => if is_sign c then r else l
  | [] => l
  end.

(** [(\.\d+)?] *)
Definition opt_fraction (l : list ascii) : list ascii :=
  match l with
  | c :: r =>
      if Ascii.eqb c "."
      then let '(ds, rest) := span_digits r in
           if nonempty ds then rest else l
      else l
  | [] => l
  end.

(** [([eE][+-]?\d+)?] *)
Definition opt_exponent (l : list ascii) : list ascii :=
  match l with
  | c :: r =>
      if is_e c
      then let '(ds, rest) := span_digits (opt_sign r) in
           if nonempty ds then rest else l
      else l
  | [] => l
  end.

Definition is_nil {A} (l : list A) : bool :=
  match l with [] => true | _ => false end.

(** [^[+-]?\d+(\.\d+)?([eE][+-]?\d+)?$] *)
Definition is_real (token : string) : bool :=
  let '(ds, rest) := span_digits (opt_sign (list_ascii_of_string token)) in
  nonempty ds && is_nil (opt_exponent (opt_fraction rest)).

(** [^[+-]?\d*(\.\d+)?([eE][+-]?\d+)?i$] *)
Definition is_imaginary (token : string) : bool :=
  let '(_, rest) := span_digits (opt_sign (list_ascii_of_string token)) in
  match opt_exponent (opt_fraction rest) with
  | [c] => Ascii.eqb c "i"
  | _ => false
  end.

Definition digit_value (c : ascii) : Z := Z.of_nat (nat_of_ascii c) - 48.

Definition digits_value (ds : list ascii) : Z :=
  fold_left (fun acc c => 10 * acc + digit_value c) ds 0.

(** [m * 10^k] as a rational. *)
Definition scale10 (m k : Z) : Q :=
  if 0 <=? k then Qmake (m * 10 ^ k) 1
  else Qmake m (Z.to_pos (10 ^ (- k))).

(** The exponent part [std::from_chars] consumes: [[eE][+-]?digits], and
    nothing when the digits are missing. *)
Definition from_chars_exponent (l : list ascii) : Z :=
  match l with
  | c :: r =>
      if is_e c then
        let '(neg, r1) :=
          match r with
          | s :: r' =>
              if Ascii.eqb s "-" then (true, r')
              else if Ascii.eqb s "+" then (false, r')
              else (false, r)
          | [] => (false, r)
          end in
        let '(ds, _) := span_digits r1 in
        if nonempty ds
        then (if neg then - digits_value ds else digits_value ds)
        else 0
      else 0
  | [] => 0
  end.

(** The number a decimal text denotes: an optional [-] (never a [+]),
    digits with an optional point, an optional exponent.  [None] when the
    text has no digit where [std::from_chars] needs one. *)
Definition decimal_value (l : list ascii) : option Q :=
  let '(neg, l1) :=
    match l with
    | c :: r => if Ascii.eqb c "-" then (true, r) else (false, l)
    | [] => (false, l)
    end in
  let '(ip, l2) := span_digits l1 in
  let '(fp, l3) :=
    match l2 with
    | c :: r => if Ascii.eqb c "." then span_digits r else ([], l2)
    | [] => ([], l2)
    end in
  if nonempty ip || nonempty fp then
    let m := digits_value (ip ++ fp) in
    let k := from_chars_exponent l3 - Z.of_nat (length fp) in
    Some (scale10 (if neg then - m else m) k)
  else None.

(** The numbers in the range of [double]: those that round, to nearest
    with ties to even, neither to an infinity nor, unless they are zero, to
    zero.  The least magnitude that rounds to an infinity is
    [2^1024 - 2^970]; the greatest that rounds to zero is [2^-1075]. *)
Definition in_double_range (q : Q) : bool :=
  let n := Z.abs (Qnum q) in
  let d := Z.pos (Qden q) in
  (n =? 0) || ((d <? n * 2 ^ 1075) && (n <? (2 ^ 1024 - 2 ^ 970) * d)).

(** [std::from_chars(first, last, val)] in the general format, on the
    decimal strings the two patterns admit.  [None] is a failed
    conversion, for want of a digit ([std::errc::invalid_argument]) or
    because the number is outside the range of [double]
    ([std::errc::result_out_of_range]): [val] is left as it was.  The
    result is the rational the text denotes; rounding to [double] is part
    of [of_value]. *)
Definition from_chars (l : list ascii) : option Q :=
  match decimal_value l with
  | Some q => if in_double_range q then Some q else None
  | None => None
  end.

(** ** Details::Func and Details::Token *)

Definition Func (T : Type) : Type := list T -> T.

Record Token (T : Type) : Type := mkToken {
  str : string;
  type : TokenType;
  arg_num : Z;
  value : T;
  func : option (Func T)
}.
Arguments mkToken {T} _ _ _ _ _.
Arguments str {T} _.
Arguments type {T} _.
Arguments arg_num {T} _.
Arguments value {T} _.
Arguments func {T} _.

Section Details.
Context {T : Type} {M : MathConcept T}.

(** [args[n]]; reading past the end of the vector is not modelled and
    yields the converted [0]. *)
Definition arg (n : nat) (args : list T) : T := nth n args (of_value 0%Q).

Definition fn1 (f : T -> T) : Func T := fun args => f (arg 0 args).
Definition fn2 (f : T -> T -> T) : Func T :=
  fun args => f (arg 0 args) (arg 1 args).

Definition op_entry (key name : string) (f : T -> T -> T) : string * Token T :=
  (key, mkToken name Operator 2 (of_value 0%Q) (Some (fn2 f))).
Definition punct_entry (name : string) (ty : TokenType) : string * Token T :=
  (name, mkToken name ty 0 (of_value 0%Q) None).
Definition const_entry (name : string) (c : numbers) : string * Token T :=
  (name, mkToken name Constant 0 (of_number c) None).
Definition func1_entry (name : string) (f : T -> T) : string * Token T :=
  (name, mkToken name Func1 1 (of_value 0%Q) (Some (fn1 f))).
Definition func2_entry (name : string) (f : T -> T -> T) : string * Token T :=
  (name, mkToken name Func2 2 (of_value 0%Q) (Some (fn2 f))).

(** The initialiser list of [RESERVED_TOKEN], in source order.  The entry
    under the key ["^"] carries the text ["/"], as line 130 has it. *)
Definition RESERVED_TOKEN_init : list (string * Token T) :=
  [ op_entry "+" "+" m_add;
    op_entry "-" "-" m_sub;
    op_entry "*" "*" m_mul;
    op_entry "/" "/" m_div;
    op_entry "^" "/" m_pow;
    punct_entry "(" LParen;
    punct_entry ")" RParen;
    punct_entry "," Comma;
    const_entry "pi" pi_v;
    const_entry "inv_pi" inv_pi_v;
    const_entry "inv_sqrtpi" inv_sqrtpi_v;
    const_entry "e" e_v;
    const_entry "sqrt2" sqrt2_v;
    const_entry "sqrt3" sqrt3_v;
    const_entry "ln2" ln2_v;
    const_entry "ln10" ln10_v;
    const_entry "log2e" log2e_v;
    const_entry "log10e" log10e_v;
    const_entry "egamma" egamma_v;
    const_entry "phi" phi_v;
    func1_entry "sin" m_sin;
    func1_entry "cos" m_cos;
    func1_entry "tan" m_tan;
    func1_entry "asin" m_asin;
    func1_entry "acos" m_acos;
    func1_entry "atan" m_atan;
    func1_entry "sinh" m_sinh;
    func1_entry "cosh" m_cosh;
    func1_entry "tanh" m_tanh;
    func1_entry "asinh" m_asinh;
    func1_entry "acosh" m_acosh;
    func1_entry "atanh" m_atanh;
    func1_entry "exp" m_exp;
    func1_entry "log" m_log;
    func1_entry "log10" m_log10;
    func1_entry "ln" m_log;
    func1_entry "sqrt" m_sqrt;
    func2_entry "pow" m_pow ].

Definition RESERVED_TOKEN : gmap string (Token T) :=
  list_to_map RESERVED_TOKEN_init.

(** [*LPAREN_p]: the registry entry of ["("], taken once at start-up. *)
Definition LPAREN : Token T := mkToken "(" LParen 0 (of_value 0%Q) None.

(** [Token(const std::string& str)]: the text is always the argument; the
    other fields come from the registry entry when there is one, from the
    literal patterns otherwise. *)
Definition Token_of (reg : gmap string (Token T)) (s : string) : Token T :=
  match reg !! s with
  | Some t => mkToken s (type t) (arg_num t) (value t) (func t)
  | None =>
      if is_real s then
        let val := default val_uninit (from_chars (list_ascii_of_string s)) in
        mkToken s Real 0 (of_value val) None
      else if is_imaginary s then
        let body := removelast (list_ascii_of_string s) in
        let val := default val_uninit (from_chars body) in
        let val := if (String.length s =? 1)%nat then 1%Q else val in
        mkToken s Imaginary 0 (of_imag val) None
      else mkToken s Variable_ 0 (of_value 0%Q) None
  end.

(** ** devide_to_tokens *)

(** The local lambda [is_operator]. *)
Definition is_operator (reg : gmap string (Token T)) (s : string) : bool :=
  match reg !! s with
  | None => false
  | Some t =>
      bool_decide (type t = Operator) || bool_decide (type t = LParen)
      || bool_decide (type t = RParen) || bool_decide (type t = Comma)
  end.

Definition is_empty (s : string) : bool :=
  match s with EmptyString => true | _ => false end.

Definition char_string (c : ascii) : string := String c EmptyString.

(** One iteration of the [for] loop over the characters; the state is the
    token deque and the candidate [str].  Extending the view [str] by one
    character appends [c], the character that follows it in [formula]. *)
Definition devide_step (reg : gmap string (Token T))
    (st : list (Token T) * string) (c : ascii) : list (Token T) * string :=
  let '(tokens, s) := st in
  if isspace c then
    if is_empty s then (tokens, s)
    else (tokens ++ [Token_of reg s], EmptyString)
  else if is_empty s then (tokens, char_string c)
  else if is_operator reg (s +:+ char_string c) then (tokens, s +:+ char_string c)
  else if is_operator reg s || is_operator reg (char_string c)
  then (tokens ++ [Token_of reg s], char_string c)
  else (tokens, s +:+ char_string c).

Definition devide_to_tokens (reg : gmap string (Token T)) (formula : string)
    : list (Token T) :=
  let '(tokens, s) :=
    fold_left (devide_step reg) (list_ascii_of_string formula) ([], EmptyString) in
  if is_empty s then tokens else tokens ++ [Token_of reg s].

(** ** make_rpn and its cases *)

(** [std::unordered_map::at]: [std::out_of_range] on a missing key. *)
Definition map_at {V} (m : gmap string V) (k : string) : result V :=
  match m !! k with
  | Some v => Ok v
  | None => Throw out_of_range
  end.

Definition LEFT_ASSOC_LIST : gmap string bool :=
  list_to_map [("+", true); ("-", true); ("*", true); ("/", true); ("^", false)].

Definition PRECED : gmap string Z :=
  list_to_map [("+", 0); ("-", 0); ("*", 1); ("/", 1); ("^", 2)].

Definition is_left_assoc (Operator : string) : result bool :=
  map_at LEFT_ASSOC_LIST Operator.

Definition ret_preced (Operator : string) : result Z :=
  map_at PRECED Operator.

(** [operator==] with [*LPAREN_p] as one operand.  Its [func] is the null
    pointer, so the comparison of the two function pointers is a null
    test. *)
Definition eq_LPAREN (t : Token T) : bool :=
  String.eqb (str t) (str LPAREN)
  && bool_decide (type t = type LPAREN)
  && (arg_num t =? arg_num LPAREN)
  && value_eqb (value t) (value LPAREN)
  && bool_decide (func t = None).

Definition has_LParen (stack : list (Token T)) : bool :=
  existsb eq_LPAREN stack.

(** The [while (true)] loop of [case_of_RParen]: emit down to the first
    token of type [LParen], which is dropped.  [back()] of an empty vector
    is undefined. *)
Fixpoint pop_until_LParen (rpn stack : list (Token T))
    : result (list (Token T) * list (Token T)) :=
  match stack with
  | [] => Undefined
  | poped :: stack' =>
      if bool_decide (type poped = LParen) then Ok (rpn, stack')
      else pop_until_LParen (rpn ++ [poped]) stack'
  end.

Definition case_of_RParen (rpn stack : list (Token T))
    : result (bool * (list (Token T) * list (Token T))) :=
  if negb (has_LParen stack) then Ok (false, (rpn, stack))
  else
    '(rpn, stack) ← pop_until_LParen rpn stack;
    match stack with
    | [] => Ok (true, (rpn, stack))
    | token_before_RParen :: stack' =>
        match func token_before_RParen with
        | Some _ => Ok (true, (rpn ++ [token_before_RParen], stack'))
        | None => Ok (true, (rpn, stack))
        end
    end.

(** The loop of [case_of_Comma]: emit while the top differs from
    [*LPAREN_p]. *)
Fixpoint pop_to_LPAREN (rpn stack : list (Token T))
    : result (list (Token T) * list (Token T)) :=
  match stack with
  | [] => Undefined
  | top :: stack' =>
      if eq_LPAREN top then Ok (rpn, stack)
      else pop_to_LPAREN (rpn ++ [top]) stack'
  end.

Definition case_of_Comma (rpn stack : list (Token T))
    : result (bool * (list (Token T) * list (Token T))) :=
  if negb (has_LParen stack) then Ok (false, (rpn, stack))
  else
    '(rpn, stack) ← pop_to_LPAREN rpn stack;
    Ok (true, (rpn, stack)).

(** The [while (!stack.empty())] loop of [case_of_Operator]. *)
Fixpoint pop_operators (token : Token T) (rpn stack : list (Token T))
    : result (list (Token T) * list (Token T)) :=
  match stack with
  | [] => Ok (rpn, stack)
  | poped :: stack' =>
      if bool_decide (type poped ≠ Operator) then Ok (rpn, stack)
      else
        preced_t ← ret_preced (str token);
        preced_p ← ret_preced (str poped);
        left ← is_left_assoc (str token);
        if (if left : bool then preced_t >? preced_p else preced_t >=? preced_p)
        then Ok (rpn, stack)
        else pop_operators token (rpn ++ [poped]) stack'
  end.

Definition case_of_Operator (reg : gmap string (Token T))
    (rpn stack : list (Token T)) (token : Token T)
    (is_prev_token_operator : bool)
    : result (list (Token T) * list (Token T)) :=
  if is_prev_token_operator && String.eqb (str token) "+" then Ok (rpn, stack)
  else
    let '(rpn, token) :=
      if is_prev_token_operator && String.eqb (str token) "-"
      then (rpn ++ [Token_of reg "-1"], Token_of reg "*")
      else (rpn, token) in
    '(rpn, stack) ← pop_operators token rpn stack;
    Ok (rpn, token :: stack).

Definition BAD_RPNs : list (Token T) := [].

(** The final loop of [make_rpn]. *)
Fixpoint push_remaining (rpn stack : list (Token T)) : list (Token T) :=
  match stack with
  | [] => rpn
  | top :: stack' =>
      if has_LParen stack then BAD_RPNs
      else push_remaining (rpn ++ [top]) stack'
  end.

(** The main loop of [make_rpn], from the state [(rpn, stack,
    is_prev_token_operator)]; [retval] is consumed where it is set. *)
Fixpoint make_rpn_loop (reg : gmap string (Token T)) (tokens : list (Token T))
    (rpn stack : list (Token T)) (is_prev_token_operator : bool)
    : result (list (Token T)) :=
  match tokens with
  | [] => Ok (push_remaining rpn stack)
  | token :: tokens' =>
      match type token with
      | Variable_ | Constant | Real | Imaginary =>
          make_rpn_loop reg tokens' (rpn ++ [token]) stack false
      | Func1 | Func2 | Func3 =>
          make_rpn_loop reg tokens' rpn (token :: stack) false
      | LParen =>
          make_rpn_loop reg tokens' rpn (token :: stack) true
      | RParen =>
          '(retval, (rpn, stack)) ← case_of_RParen rpn stack;
          if retval : bool then make_rpn_loop reg tokens' rpn stack false
          else Ok BAD_RPNs
      | Comma =>
          '(retval, (rpn, stack)) ← case_of_Comma rpn stack;
          if retval : bool then make_rpn_loop reg tokens' rpn stack false
          else Ok BAD_RPNs
      | Operator =>
          '(rpn, stack) ←
            case_of_Operator reg rpn stack token is_prev_token_operator;
          make_rpn_loop reg tokens' rpn stack true
      end
  end.

Definition make_rpn (reg : gmap string (Token T)) (formula : string)
    : result (list (Token T)) :=
  make_rpn_loop reg (devide_to_tokens reg formula) [] [] true.

(** ** VariableTable *)

Definition VariableTable_contains (table : gmap string T) (s : string) : bool :=
  bool_decide (is_Some (table !! s)).

Definition VariableTable_at (table : gmap string T) (s : string) : result T :=
  map_at table s.

(** [operator+=]: [variables[pair.first] = pair.second]. *)
Definition VariableTable_add (table : gmap string T) (s : string) (val : T)
    : gmap string T :=
  <[s := val]> table.

(** ** compile_RPN *)

(** The three closures [compile_RPN] builds.  Each captures its token by
    copy. *)
Inductive CompiledFunc : Type :=
| push_variable (token : Token T)
| push_value (token : Token T)
| apply_func (token : Token T).

(** The [for (n = arg_num - 1; n >= 0; --n)] loop: [count] values leave
    the stack, the first one popped landing in the last slot of [args]. *)
Fixpoint pop_args (count : nat) (stack args : list T)
    : result (list T * list T) :=
  match count with
  | O => Ok (args, stack)
  | S count' =>
      match stack with
      | [] => Undefined
      | v :: stack' => pop_args count' stack' (v :: args)
      end
  end.

(** Running one closure on [(stack, table)].  A negative size makes the
    constructor of [std::vector] throw [std::length_error]; calling a null
    [func] is undefined. *)
Definition call (f : CompiledFunc) (stack : list T) (table : gmap string T)
    : result (list T) :=
  match f with
  | push_variable token =>
      v ← VariableTable_at table (str token);
      Ok (v :: stack)
  | push_value token => Ok (value token :: stack)
  | apply_func token =>
      if arg_num token <? 0 then Throw length_error
      else
        '(args, stack) ← pop_args (Z.to_nat (arg_num token)) stack [];
        match func token with
        | Some f => Ok (f args :: stack)
        | None => Undefined
        end
  end.

Definition missing_argument (s : string) : exn :=
  invalid_argument ("Invalid formula: missing number of argument for " +:+ s).

Definition too_many_arguments : exn :=
  invalid_argument "Invalid formula: some functions have too many arguments".

(** The body of the [for] loop of [compile_RPN] on the state
    [(var_cnt, crpn, var_list)].  A throw leaves [var_list] as it is at
    that point: it is the caller's object. *)
Fixpoint compile_loop (rpn : list (Token T)) (var_cnt : Z)
    (crpn : list CompiledFunc) (var_list : gset string)
    : result (list CompiledFunc) * gset string :=
  match rpn with
  | [] =>
      if bool_decide (var_cnt ≠ 1) then (Throw too_many_arguments, var_list)
      else (Ok crpn, var_list)
  | token :: rpn' =>
      match type token with
      | Variable_ =>
          compile_loop rpn' (var_cnt + 1) (crpn ++ [push_variable token])
            ({[ str token ]} ∪ var_list)
      | Constant | Real | Imaginary =>
          compile_loop rpn' (var_cnt + 1) (crpn ++ [push_value token]) var_list
      | Operator | Func1 | Func2 | Func3 =>
          let var_cnt := var_cnt - arg_num token in
          if var_cnt <? 0 then (Throw (missing_argument (str token)), var_list)
          else
            compile_loop rpn' (var_cnt + 1) (crpn ++ [apply_func token]) var_list
      | LParen | RParen | Comma =>
          compile_loop rpn' (var_cnt + 1) crpn var_list
      end
  end.

(** [compile_RPN(rpn, var_list)]: the outcome and the final content of the
    output parameter, which is cleared first. *)
Definition compile_RPN (rpn : list (Token T)) (var_list : gset string)
    : result (list CompiledFunc) * gset string :=
  compile_loop rpn 0 [] ∅.

(** Running a compiled list from left to right. *)
Fixpoint run (crpn : list CompiledFunc) (stack : list T) (table : gmap string T)
    : result (list T) :=
  match crpn with
  | [] => Ok stack
  | f :: crpn' =>
      stack ← call f stack table;
      run crpn' stack table
  end.

(** ** class Syamfp *)

Record Syamfp : Type := mkSyamfp {
  formula : string;
  table : gmap string T;
  vars : gset string;
  crpn : list CompiledFunc
}.

(** [Syamfp()] and [Syamfp(formula, table)]. *)
Definition Syamfp_default : Syamfp := mkSyamfp EmptyString ∅ ∅ [].
Definition Syamfp_new (formula : string) (table : gmap string T) : Syamfp :=
  mkSyamfp formula table ∅ [].

Definition EINVAL : Z := 22.

(** [int parse(const std::string&)]: what the call yields (a return code,
    or an exception leaving [make_rpn]) and the handle afterwards.
    [rpn == BAD_RPNs] compares with the empty vector.  The member [vars] is
    handed to [compile_RPN] as its output parameter; every exception of
    [compile_RPN] is a [std::exception] and is caught. *)
Definition parse (reg : gmap string (Token T)) (h : Syamfp) (f : string)
    : result Z * Syamfp :=
  match make_rpn reg f with
  | Throw e => (Throw e, h)
  | Undefined => (Undefined, h)
  | Ok rpn =>
      if is_nil rpn then (Ok (- EINVAL), h)
      else
        match compile_RPN rpn (vars h) with
        | (Ok c, vl) => (Ok 0, mkSyamfp f (table h) vl c)
        | (Throw _, vl) =>
            (Ok (- EINVAL), mkSyamfp (formula h) (table h) vl (crpn h))
        | (Undefined, vl) =>
            (Undefined, mkSyamfp (formula h) (table h) vl (crpn h))
        end
  end.

(** [int parse(const std::string&, const VariableTable<Type>&)]. *)
Definition parse_with (reg : gmap string (Token T)) (h : Syamfp) (f : string)
    (tbl : gmap string T) : result Z * Syamfp :=
  parse reg (mkSyamfp (formula h) tbl (vars h) (crpn h)) f.

Definition regist (h : Syamfp) (tbl : gmap string T) : Syamfp :=
  mkSyamfp (formula h) tbl (vars h) (crpn h).

(** The closure [ret_func] returns, over the copies [Table] and [CRPN];
    [front()] of an empty deque is undefined.  The bottom of the stack is
    the last element of the list. *)
Definition ret_func_closure (Table : gmap string T) (CRPN : list CompiledFunc)
    (variable_string : string) (value : T) : result T :=
  let table := VariableTable_add Table variable_string value in
  stack ← run CRPN [] table;
  match last stack with
  | Some v => Ok v
  | None => Undefined
  end.

Definition undetermined : exn :=
  runtime_error "Invalid function: some variable are not determined".

(** [ret_func]: the check of the variable list, then the closure.  The
    order in which the set is visited does not change whether the check
    throws. *)
Definition ret_func (h : Syamfp) (variable_string : string)
    : result (T -> result T) :=
  if existsb
       (fun s => negb (VariableTable_contains (table h) s)
                 && negb (String.eqb s variable_string))
       (elements (vars h))
  then Throw undetermined
  else Ok (ret_func_closure (table h) (crpn h) variable_string).

(** ** add_custom_function *)

(** [std::unordered_map::insert]: the pair is added only when the key is
    not yet present. *)
Definition map_insert_new {V} (k : string) (v : V) (m : gmap string V)
    : gmap string V :=
  match m !! k with
  | Some _ => m
  | None => <[k := v]> m
  end.

Definition add_custom_function (reg : gmap string (Token T)) (name : string)
    (ty : TokenType) (arg_num : Z) (lambda : option (Func T))
    : gmap string (Token T) :=
  map_insert_new name (mkToken name ty arg_num (of_value 0%Q) lambda) reg.

End Details.

Arguments CompiledFunc : clear implicits.
Arguments Syamfp : clear implicits.

(** * An exact instance: complex numbers over the reals

    The header is instantiated at a complex type (the constructor of
    [Token] casts [val * 1.0i] to [Type]).  [Cx] gives [MathConcept] its
    mathematical reading: pairs of reals with the principal branches of the
    elementary functions, [std::pow] as [exp (y * log x)] with [pow 0 y = 0].
    Rounding is absent from it.  The twelve constants and the content of an
    unset [val] are left as parameters. *)

Module Cx.

#[local] Open Scope R_scope.

Definition C : Type := (R * R)%type.

Definition re (z : C) : R := fst z.
Definition im (z : C) : R := snd z.
Definition of_R (x : R) : C := (x, 0).
Definition Ci : C := (0, 1).

Definition eqb (z w : C) : bool :=
  if Req_EM_T (re z) (re w)
  then (if Req_EM_T (im z) (im w) then true else false)
  else false.

Definition add (z w : C) : C := (re z + re w, im z + im w).
Definition sub (z w : C) : C := (re z - re w, im z - im w).
Definition mul (z w : C) : C :=
  (re z * re w - im z * im w, re z * im w + im z * re w).
Definition div (z w : C) : C :=
  let d := re w * re w + im w * im w in
  ((re z * re w + im z * im w) / d, (im z * re w - re z * im w) / d).

Definition abs (z : C) : R := sqrt (re z * re z + im z * im z).

(** The principal argument, in (-PI, PI]. *)
Definition arg (z : C) : R :=
  let a := re z in
  let b := im z in
  if Rlt_dec 0 a then atan (b / a)
  else if Rlt_dec a 0 then
    (if Rle_dec 0 b then atan (b / a) + PI else atan (b / a) - PI)
  else if Rlt_dec 0 b then PI / 2
  else if Rlt_dec b 0 then - (PI / 2)
  else 0.

Definition exp (z : C) : C :=
  (Rtrigo_def.exp (re z) * cos (im z), Rtrigo_def.exp (re z) * sin (im z)).
Definition log (z : C) : C := (ln (abs z), arg z).
Definition log10 (z : C) : C := div (log z) (of_R (ln 10)).

Definition pow (z w : C) : C :=
  if eqb z (of_R 0) then of_R 0 else exp (mul w (log z)).
Definition sqrt (z : C) : C :=
  if eqb z (of_R 0) then of_R 0 else exp (div (log z) (of_R 2)).

Definition sin (z : C) : C :=
  (Rtrigo_def.sin (re z) * cosh (im z), Rtrigo_def.cos (re z) * sinh (im z)).
Definition cos (z : C) : C :=
  (Rtrigo_def.cos (re z) * cosh (im z), - (Rtrigo_def.sin (re z) * sinh (im z))).
Definition tan (z : C) : C := div (sin z) (cos z).
Definition sinh (z : C) : C :=
  (Rtrigo_def.sinh (re z) * Rtrigo_def.cos (im z),
   Rtrigo_def.cosh (re z) * Rtrigo_def.sin (im z)).
Definition cosh (z : C) : C :=
  (Rtrigo_def.cosh (re z) * Rtrigo_def.cos (im z),
   Rtrigo_def.sinh (re z) * Rtrigo_def.sin (im z)).
Definition tanh (z : C) : C := div (sinh z) (cosh z).

Definition one : C := of_R 1.

Definition asin (z : C) : C :=
  mul (sub (of_R 0) Ci) (log (add (mul Ci z) (sqrt (sub one (mul z z))))).
Definition acos (z : C) : C := sub (of_R (PI / 2)) (asin z).
Definition atan (z : C) : C :=
  mul (div Ci (of_R 2))
      (sub (log (sub one (mul Ci z))) (log (add one (mul Ci z)))).
Definition asinh (z : C) : C := log (add z (sqrt (add (mul z z) one))).
Definition acosh (z : C) : C :=
  log (add z (mul (sqrt (add z one)) (sqrt (sub z one)))).
Definition atanh (z : C) : C :=
  div (sub (log (add one z)) (log (sub one z))) (of_R 2).

Lemma eqb_refl (z : C) : eqb z z = true.
Proof.
  unfold eqb. destruct (Req_EM_T (re z) (re z)) as [_|n]; [|by destruct n].
  destruct (Req_EM_T (im z) (im z)) as [_|n]; [done|by destruct n].
Qed.

Definition math (consts : numbers -> R) (uninit : Q) : MathConcept C := {|
  of_value q := of_R (Q2R q);
  of_imag q := mul (of_R (Q2R q)) Ci;
  of_number c := of_R (consts c);
  val_uninit := uninit;
  value_eqb := eqb;
  m_sin := sin; m_cos := cos; m_tan := tan;
  m_asin := asin; m_acos := acos; m_atan := atan;
  m_sinh := sinh; m_cosh := cosh; m_tanh := tanh;
  m_asinh := asinh; m_acosh := acosh; m_atanh := atanh;
  m_exp := exp; m_log := log; m_log10 := log10;
  m_sqrt := sqrt;
  m_pow := pow;
  m_add := add; m_sub := sub; m_mul := mul; m_div := div;
  zero_eqb_zero := eqb_refl _
|}.

End Cx.

(** * Auxiliary definitions for the statements *)

Section Statements.
Context {T : Type} {M : MathConcept T}.

Definition strs (l : list (Token T)) : list string := map str l.

(** Parsing [f] on a fresh handle bound to [tbl], then building the unary
    function of [x] and calling it on [v]. *)
Definition parse_and_call (reg : gmap string (Token T))
    (f : string) (tbl : gmap string T) (x : string) (v : T) : result T :=
  let '(r, h) := parse reg (Syamfp_new f tbl) f in
  code ← r;
  if code =? 0 then g ← ret_func h x; g v
  else Throw (invalid_argument "parse").

(** The outcome of the compiler on the postfix form of [f]. *)
Definition compile_formula (reg : gmap string (Token T)) (f : string)
    : result (list (CompiledFunc T)) :=
  rpn ← make_rpn reg f;
  (compile_RPN rpn ∅).1.

(** A successful parse of "x + y", followed by a failing parse of "1 +". *)
Definition parsed_x_plus_y : Syamfp T :=
  (parse RESERVED_TOKEN Syamfp_default "x + y").2.

Definition then_failed : Syamfp T :=
  (parse RESERVED_TOKEN parsed_x_plus_y "1 +").2.

(** A name of the free-variable set that [ret_func] must reject. *)
Definition unbound (h : Syamfp T) (x s : string) : Prop :=
  s ∈ vars h /\ table h !! s = None /\ s ≠ x.

(** ** Postfix sequences and the depth counter *)

Definition is_operand (t : Token T) : bool :=
  match type t with
  | Variable_ | Constant | Real | Imaginary => true
  | _ => false
  end.

Definition is_applied (t : Token T) : bool :=
  match type t with
  | Operator | Func1 | Func2 | Func3 => true
  | _ => false
  end.

(** A postfix sequence holds operands, operators and functions only. *)
Definition postfix_sequence (rpn : list (Token T)) : bool :=
  forallb (fun t => is_operand t || is_applied t) rpn.

(** The depth counter of the compiler as the specification words it:
    an operand adds one; an operator or function first takes its arity
    off, which must not go below zero, then adds one; in the end the depth
    must be one. *)
Inductive depth_outcome : Type :=
| depth_good
| depth_missing (symbol : string)
| depth_too_many.

Fixpoint depth_walk (rpn : list (Token T)) (depth : Z) : depth_outcome :=
  match rpn with
  | [] => if depth =? 1 then depth_good else depth_too_many
  | t :: rpn' =>
      if is_operand t then depth_walk rpn' (depth + 1)
      else if depth - arg_num t <? 0 then depth_missing (str t)
      else depth_walk rpn' (depth - arg_num t + 1)
  end.

(** What the compiler answers for each outcome of the counter. *)
Definition outcome_of (w : depth_outcome) (ops : list (CompiledFunc T))
    : result (list (CompiledFunc T)) :=
  match w with
  | depth_good => Ok ops
  | depth_missing s => Throw (missing_argument s)
  | depth_too_many => Throw too_many_arguments
  end.

(** The operation each token stands for, and the names of the variables
    of a sequence. *)
Definition operation_of (t : Token T) : CompiledFunc T :=
  match type t with
  | Variable_ => push_variable t
  | Constant | Real | Imaginary => push_value t
  | _ => apply_func t
  end.

Definition variables_of (rpn : list (Token T)) : gset string :=
  list_to_set (map str (filter (fun t => type t = Variable_) rpn)).

(** Operators and functions of a sequence have a behaviour and an arity
    that is not negative. *)
Definition applicable (t : Token T) : bool :=
  negb (is_applied t) || ((0 <=? arg_num t) && bool_decide (is_Some (func t))).

Definition well_formed (rpn : list (Token T)) : bool :=
  postfix_sequence rpn && forallb applicable rpn.

(** ** Invariants of the converter *)

(** Tokens fit for the output: operands, and operators or functions with a
    behaviour and an arity that is not negative. *)
Definition emitted_ok (t : Token T) : Prop :=
  (is_operand t || is_applied t) && applicable t = true.

(** Tokens found on the stack: operators and functions as above, or the
    registry's left parenthesis. *)
Definition stacked_ok (t : Token T) : Prop :=
  is_applied t && applicable t = true
  \/ (type t = LParen /\ eq_LPAREN t = true).

(** Tokens the tokenizer builds from the built-in registry. *)
Definition token_ok (t : Token T) : Prop :=
  match type t with
  | Operator | Func1 | Func2 | Func3 => applicable t = true
  | LParen => eq_LPAREN t = true
  | _ => True
  end.

(** ** The operator table as the specification words it *)

Definition operators : list string := ["+"; "-"; "*"; "/"; "^"].

(** [^] has precedence 2, [*] and [/] precedence 1, [+] and [-] precedence
    0; [^] groups to the right, the other four to the left. *)
Definition precedence (op : string) : Z :=
  if String.eqb op "^" then 2
  else if String.eqb op "*" || String.eqb op "/" then 1
  else 0.

Definition right_associative (op : string) : bool := String.eqb op "^".

(** An operator [p] on the stack leaves it before the operator [t] is
    pushed when it binds tighter than [t], or as tight while [t] groups to
    the left. *)
Definition gives_way (t p : string) : bool :=
  (precedence t <? precedence p)
  || ((precedence t =? precedence p) && negb (right_associative t)).

(** The operators on top of the stack that leave it before [t], top
    first, and what stays. *)
Fixpoint leaving (t : string) (stack : list (Token T))
    : list (Token T) * list (Token T) :=
  match stack with
  | p :: stack' =>
      if bool_decide (type p = Operator) && gives_way t (str p)
      then let '(out, rest) := leaving t stack' in (p :: out, rest)
      else ([], stack)
  | [] => ([], [])
  end.

End Statements.

(** * Further definitions: the rest of VariableTable, and the vocabulary of
      the properties of the scanner and the converter *)

(** ** VariableTable: constructor, [operator[]], repeated registration *)

Section Tables.
Context {T : Type} {M : MathConcept T}.

(** [VariableTable(str1, val1, rest...)]: [insert_variable] assigns the
    pairs from left to right, each value already converted to [Type]. *)
Definition VariableTable_of (pairs : list (string * T)) : gmap string T :=
  fold_left (fun m p => <[p.1 := p.2]> m) pairs ∅.

(** [Type& operator[](const std::string&)]: the value read and the table
    afterwards; a missing name is inserted with [init], the
    value-initialised [Type]. *)
Definition VariableTable_index (init : T) (table : gmap string T) (s : string)
    : T * gmap string T :=
  match table !! s with
  | Some v => (v, table)
  | None => (init, <[s := init]> table)
  end.

(** A series of calls of [add_custom_function]. *)
Definition register_all (reg : gmap string (Token T))
    (calls : list (string * TokenType * Z * option (Func T)))
    : gmap string (Token T) :=
  fold_left (fun r '(name, ty, n, lambda) => add_custom_function r name ty n lambda)
    calls reg.

(** The names a list of operations reads from the table. *)
Definition pushed_names (ops : list (CompiledFunc T)) : gset string :=
  list_to_set
    (omap (fun f => match f with push_variable t => Some (str t) | _ => None end)
       ops).

End Tables.

(** ** Characters and texts *)

(** The characters of the eight operator and punctuation symbols. *)
Definition punctuation : list ascii :=
  ["+"; "-"; "*"; "/"; "^"; "("; ")"; ","]%char.

Definition is_punct (c : ascii) : bool :=
  existsb (Ascii.eqb c) punctuation.

(** The formula without its white space. *)
Definition squeezed (formula : string) : list ascii :=
  List.filter (fun c => negb (isspace c)) (list_ascii_of_string formula).

(** Token texts: not empty, no white space. *)
Definition text_ok (s : string) : Prop :=
  s ≠ EmptyString
  /\ forallb (fun c => negb (isspace c)) (list_ascii_of_string s) = true.

(** A text is plain when it is one character, or holds no operator or
    punctuation character. *)
Definition text_plain (s : string) : Prop :=
  String.length s = 1%nat
  \/ forallb (fun c => negb (is_punct c)) (list_ascii_of_string s) = true.

(** The text "e", digits, "i". *)
Definition bare_exponent (ds : list ascii) : string :=
  string_of_list_ascii ("e"%char :: ds ++ ["i"%char]).

(** The nesting of parentheses in a sequence of token categories, from
    depth [d]: a right parenthesis or a comma needs an open parenthesis,
    and none is left open at the end. *)
Fixpoint nesting (d : nat) (ts : list TokenType) : bool :=
  match ts with
  | [] => (d =? 0)%nat
  | LParen :: r => nesting (S d) r
  | RParen :: r => match d with O => false | S d' => nesting d' r end
  | Comma :: r => match d with O => false | S _ => nesting d r end
  | _ :: r => nesting d r
  end.

Section Scan.
Context {T : Type} {M : MathConcept T}.

(** The characters of a token sequence, in order. *)
Definition chars_of (tokens : list (Token T)) : list ascii :=
  concat (map (fun t => list_ascii_of_string (str t)) tokens).

(** The state of the scan: the tokens flushed and the candidate. *)
Definition scan_chars (st : list (Token T) * string) : list ascii :=
  chars_of st.1 ++ list_ascii_of_string st.2.

Definition scan_ok (st : list (Token T) * string) : Prop :=
  Forall (fun t => text_ok (str t)) st.1
  /\ forallb (fun c => negb (isspace c)) (list_ascii_of_string st.2) = true.

Definition scan_plain (st : list (Token T) * string) : Prop :=
  Forall (fun t => text_plain (str t)) st.1
  /\ (st.2 = EmptyString \/ text_plain st.2).

(** The last step of [devide_to_tokens]: the candidate left over is a
    token. *)
Definition flush (st : list (Token T) * string) (reg : gmap string (Token T))
    : list (Token T) :=
  if is_empty st.2 then st.1 else st.1 ++ [Token_of reg st.2].

(** An operator token whose text the two tables of the converter know. *)
Definition known_operator (t : Token T) : Prop :=
  type t = Operator ->
  is_Some (PRECED !! str t) /\ is_Some (LEFT_ASSOC_LIST !! str t).

(** The left parentheses on a stack. *)
Definition open_parens (stack : list (Token T)) : nat :=
  length (filter (fun t => type t = LParen) stack).

End Scan.

(** * Properties *)

(** Evaluates a closed pipeline over an abstract instance.  The fields of
    the instance become variables; the only comparison of values the
    converter makes, that of the converted [0] with itself, is settled by
    the law of the class each time the evaluation of [make_rpn] stops at
    it; the rest of the pipeline is then evaluated on the postfix sequence
    found. *)
Ltac settle_tests c X :=
  lazymatch X with
  | context [c] =>
      lazymatch eval pattern c in X with
      | ?F _ => let X' := eval vm_compute in (F true) in settle_tests c X'
      end
  | _ => X
  end.

Ltac run_pipeline :=
  match goal with
  | M : MathConcept _ |- _ =>
      let Z0 := fresh "Hzero" in
      destruct M as [? ? ? ? ? ? ? ? ? ? ? ? ? ? ? ? ? ? ? ? ? ? ? ? ? ? Z0];
      unfold parse_and_call, compile_formula, parse;
      try match goal with
      | |- context [@make_rpn ?T0 ?M0 ?reg ?f] =>
          let X := eval vm_compute in (@make_rpn T0 M0 reg f) in
          let X' :=
            lazymatch type of Z0 with ?c = true => settle_tests c X end in
          let E := fresh "E" in
          assert (E : @make_rpn T0 M0 reg f = X')
            by (repeat (vm_compute; rewrite Z0); vm_compute; reflexivity);
          rewrite E; clear E
      end;
      vm_compute; try reflexivity
  end.

(** ** Exact arithmetic on the real axis *)

Module CxFacts.
Import Cx.
#[local] Open Scope R_scope.

Lemma add_real (x y : R) : add (of_R x) (of_R y) = of_R (x + y).
Proof. unfold add, of_R; simpl. f_equal; lra. Qed.

Lemma mul_real (x y : R) : mul (of_R x) (of_R y) = of_R (x * y).
Proof. unfold mul, of_R; simpl. f_equal; lra. Qed.

Lemma sin_0 : sin (of_R 0) = of_R 0.
Proof.
  unfold sin, of_R; simpl.
  rewrite Rtrigo_def.sin_0, Rtrigo_def.cos_0, sinh_0. f_equal; lra.
Qed.

Lemma pow_real (x y : R) : 0 < x -> pow (of_R x) (of_R y) = of_R (Rpower x y).
Proof.
  intros Hx. unfold pow, eqb, of_R; simpl.
  destruct (Req_EM_T x 0) as [E|_]; [lra|].
  unfold exp, mul, log, abs, arg; simpl.
  destruct (Rlt_dec 0 x) as [_|n]; [|by destruct n].
  replace (x * x + 0 * 0) with (x * x) by lra.
  rewrite sqrt_square by lra.
  replace (0 / x) with 0 by (unfold Rdiv; lra).
  rewrite atan_0.
  replace (y * 0 + 0 * ln x) with 0 by lra.
  replace (y * ln x - 0 * 0) with (y * ln x) by lra.
  rewrite Rtrigo_def.sin_0, Rtrigo_def.cos_0. unfold Rpower. f_equal; lra.
Qed.

Lemma pow_nat (x : R) (n : nat) (z : Z) :
  z = Z.of_nat n -> 0 < x -> pow (of_R x) (of_R (IZR z)) = of_R (x ^ n).
Proof.
  intros -> Hx. rewrite <- INR_IZR_INZ, pow_real by done.
  by rewrite Rpower_pow.
Qed.

Lemma Q2R_Z (z : Z) : Q2R (Qmake z 1) = IZR z.
Proof. unfold Q2R; simpl. lra. Qed.

Lemma value_Z consts uninit (z : Z) :
  @of_value C (math consts uninit) (Qmake z 1) = of_R (IZR z).
Proof. simpl. by rewrite Q2R_Z. Qed.

End CxFacts.

(** ** Worked formulas over an arbitrary instance *)

Section Worked.
Context {T : Type} {M : MathConcept T}.

Lemma rpn_3_plus_4_times_2 :
  strs <$> make_rpn RESERVED_TOKEN "3 + 4 * 2" = Ok ["3"; "4"; "2"; "*"; "+"].
Proof. run_pipeline. Qed.

Lemma call_3_plus_4_times_2 tbl x v :
  parse_and_call RESERVED_TOKEN "3 + 4 * 2" tbl x v
  = Ok (m_add (of_value 3) (m_mul (of_value 4) (of_value 2))).
Proof. run_pipeline. Qed.

Lemma tokens_3_plus_4_times_2 :
  strs (devide_to_tokens RESERVED_TOKEN "3 + 4 * 2") = ["3"; "+"; "4"; "*"; "2"].
Proof. run_pipeline. Qed.

Lemma rpn_2_caret_3_caret_2 :
  strs <$> make_rpn RESERVED_TOKEN "2 ^ 3 ^ 2" = Ok ["2"; "3"; "2"; "^"; "^"].
Proof. run_pipeline. Qed.

Lemma call_2_caret_3_caret_2 tbl x v :
  parse_and_call RESERVED_TOKEN "2 ^ 3 ^ 2" tbl x v
  = Ok (m_pow (of_value 2) (m_pow (of_value 3) (of_value 2))).
Proof. run_pipeline. Qed.

(** The registry entry of ["^"] carries the text ["/"], but a token built
    from the text ["^"] keeps that text. *)
Lemma caret_token_text :
  str <$> (RESERVED_TOKEN (T:=T) !! "^") = Some "/"
  /\ str (Token_of RESERVED_TOKEN "^") = "^".
Proof. split; run_pipeline. Qed.

End Worked.

Lemma ret_preced_bound (op : string) (p : Z) : ret_preced op = Ok p -> p <= 2.
Proof.
  unfold ret_preced, map_at.
  destruct (PRECED !! op) as [q|] eqn:E; [|done].
  intros [= <-].
  apply elem_of_list_to_map_2 in E.
  repeat (apply elem_of_cons in E as [[= -> ->]|E]; [lia|]).
  by apply elem_of_nil in E.
Qed.

(** C8: for the formula "3 + 4 * 2" the tokenizer yields 3 + 4 * 2, the
    postfix conversion yields the order 3 4 2 * +, and calling the compiled
    plan yields 3 + (4 * 2) over every instance, which is 11 in exact
    arithmetic. *)
Theorem C8_three_plus_four_times_two :
  (forall T (M : MathConcept T),
      strs (devide_to_tokens RESERVED_TOKEN "3 + 4 * 2")
      = ["3"; "+"; "4"; "*"; "2"]
      /\ strs <$> make_rpn RESERVED_TOKEN "3 + 4 * 2"
         = Ok ["3"; "4"; "2"; "*"; "+"]
      /\ forall tbl x v,
          parse_and_call RESERVED_TOKEN "3 + 4 * 2" tbl x v
          = Ok (m_add (of_value 3) (m_mul (of_value 4) (of_value 2))))
  /\ (forall consts uninit tbl x v,
         parse_and_call (M := Cx.math consts uninit)
           (RESERVED_TOKEN (M := Cx.math consts uninit)) "3 + 4 * 2" tbl x v
         = Ok (Cx.of_R 11)).
Proof.
  split.
  - intros T M. split; [apply tokens_3_plus_4_times_2|].
    split; [apply rpn_3_plus_4_times_2|apply call_3_plus_4_times_2].
  - intros consts uninit tbl x v. rewrite call_3_plus_4_times_2.
    rewrite !CxFacts.value_Z. cbn [m_add m_mul Cx.math].
    rewrite CxFacts.mul_real, CxFacts.add_real. do 2 f_equal. lra.
Qed.

Section Operators.
Context {T : Type} {M : MathConcept T}.

(** The two tables of the converter decide as the specification's table. *)
Lemma operators_decision (t p : string) :
  t ∈ operators -> p ∈ operators ->
  exists pt pp l,
    ret_preced t = Ok pt /\ ret_preced p = Ok pp /\ is_left_assoc t = Ok l
    /\ (if l : bool then pt >? pp else pt >=? pp) = negb (gives_way t p).
Proof.
  unfold operators. intros Ht Hp.
  repeat (apply elem_of_cons in Ht as [->|Ht]);
    try (by apply elem_of_nil in Ht);
    repeat (apply elem_of_cons in Hp as [->|Hp]);
    try (by apply elem_of_nil in Hp);
    eexists _, _, _;
    (split; [reflexivity|]); (split; [reflexivity|]); split; reflexivity.
Qed.

Lemma pop_operators_leaving (token : Token T) (stack rpn : list (Token T)) :
  str token ∈ operators ->
  Forall (fun p => type p = Operator -> str p ∈ operators) stack ->
  pop_operators token rpn stack
  = Ok (rpn ++ (leaving (str token) stack).1, (leaving (str token) stack).2).
Proof.
  intros Ht Hs. revert rpn. induction Hs as [|p stack Hp Hs IH]; intros rpn.
  { cbn. by rewrite app_nil_r. }
  cbn [pop_operators leaving].
  destruct (decide (type p = Operator)) as [Hop|Hop].
  - rewrite (bool_decide_eq_false_2 (type p ≠ Operator))
      by (intros H; by apply H).
    rewrite (bool_decide_eq_true_2 _ Hop). cbn [andb].
    destruct (operators_decision _ _ Ht (Hp Hop))
      as (pt & pp & l & E1 & E2 & E3 & E4).
    rewrite E1, E2, E3. unfold mbind, result_bind. rewrite E4.
    destruct (gives_way (str token) (str p)); cbn [negb].
    + rewrite IH. destruct (leaving (str token) stack) as [out rest].
      cbn [fst snd]. by rewrite <- app_assoc.
    + cbn [fst snd]. by rewrite app_nil_r.
  - rewrite (bool_decide_eq_true_2 (type p ≠ Operator)) by done.
    rewrite (bool_decide_eq_false_2 (type p = Operator)) by done.
    cbn [andb fst snd]. by rewrite app_nil_r.
Qed.

Lemma case_of_Operator_leaving (reg : gmap string (Token T)) (token : Token T)
    (rpn stack : list (Token T)) :
  str token ∈ operators ->
  Forall (fun p => type p = Operator -> str p ∈ operators) stack ->
  case_of_Operator reg rpn stack token false
  = Ok (rpn ++ (leaving (str token) stack).1,
        token :: (leaving (str token) stack).2).
Proof.
  intros Ht Hs. unfold case_of_Operator. cbn [andb].
  by rewrite (pop_operators_leaving token stack rpn Ht Hs).
Qed.

Lemma rpn_1_minus_2_minus_3 :
  strs <$> make_rpn RESERVED_TOKEN "1 - 2 - 3" = Ok ["1"; "2"; "-"; "3"; "-"].
Proof. run_pipeline. Qed.

Lemma call_1_minus_2_minus_3 tbl x v :
  parse_and_call RESERVED_TOKEN "1 - 2 - 3" tbl x v
  = Ok (m_sub (m_sub (of_value 1) (of_value 2)) (of_value 3)).
Proof. run_pipeline. Qed.

Lemma rpn_8_over_4_over_2 :
  strs <$> make_rpn RESERVED_TOKEN "8 / 4 / 2" = Ok ["8"; "4"; "/"; "2"; "/"].
Proof. run_pipeline. Qed.

Lemma call_8_over_4_over_2 tbl x v :
  parse_and_call RESERVED_TOKEN "8 / 4 / 2" tbl x v
  = Ok (m_div (m_div (of_value 8) (of_value 4)) (of_value 2)).
Proof. run_pipeline. Qed.

Lemma rpn_2_times_3_plus_4 :
  strs <$> make_rpn RESERVED_TOKEN "2 * 3 + 4" = Ok ["2"; "3"; "*"; "4"; "+"].
Proof. run_pipeline. Qed.

Lemma call_2_times_3_plus_4 tbl x v :
  parse_and_call RESERVED_TOKEN "2 * 3 + 4" tbl x v
  = Ok (m_add (m_mul (of_value 2) (of_value 3)) (of_value 4)).
Proof. run_pipeline. Qed.

Lemma rpn_2_caret_3_times_2 :
  strs <$> make_rpn RESERVED_TOKEN "2 ^ 3 * 2" = Ok ["2"; "3"; "^"; "2"; "*"].
Proof. run_pipeline. Qed.

Lemma rpn_2_times_3_caret_2 :
  strs <$> make_rpn RESERVED_TOKEN "2 * 3 ^ 2" = Ok ["2"; "3"; "2"; "^"; "*"].
Proof. run_pipeline. Qed.

Lemma rpn_all_levels :
  strs <$> make_rpn RESERVED_TOKEN "1 + 2 * 3 ^ 4 - 5"
  = Ok ["1"; "2"; "3"; "4"; "^"; "*"; "+"; "5"; "-"].
Proof. run_pipeline. Qed.

Lemma call_all_levels tbl x v :
  parse_and_call RESERVED_TOKEN "1 + 2 * 3 ^ 4 - 5" tbl x v
  = Ok (m_sub
          (m_add (of_value 1)
             (m_mul (of_value 2) (m_pow (of_value 3) (of_value 4))))
          (of_value 5)).
Proof. run_pipeline. Qed.

End Operators.

(** C1: [^] has precedence 2, the highest, and is right-associative; [*]
    and [/] have precedence 1, [+] and [-] precedence 0, all four
    left-associative.  A token read from the text "^" carries that text, so
    these are the entries the converter consults.  The converter applies
    them: before it pushes an operator it emits, from the top of the stack,
    exactly the operators that bind tighter, and those that bind as tight
    when the new operator groups to the left.  So "1 - 2 - 3" is
    (1 - 2) - 3 and "8 / 4 / 2" is (8 / 4) / 2, "2 * 3 + 4" is (2 * 3) + 4,
    "2 ^ 3 * 2" is (2 ^ 3) * 2 and "2 * 3 ^ 2" is 2 * (3 ^ 2), and
    "1 + 2 * 3 ^ 4 - 5" is (1 + 2 * 3 ^ 4) - 5.  The formula "2 ^ 3 ^ 2"
    becomes 2 3 2 ^ ^ and its value is pow (2, pow (3, 2)) over every
    instance: 512 in exact arithmetic, and not 64. *)
Theorem C1_caret_right_associative :
  (ret_preced "^" = Ok 2 /\ is_left_assoc "^" = Ok false
   /\ ret_preced "*" = Ok 1 /\ is_left_assoc "*" = Ok true
   /\ ret_preced "/" = Ok 1 /\ is_left_assoc "/" = Ok true
   /\ ret_preced "+" = Ok 0 /\ is_left_assoc "+" = Ok true
   /\ ret_preced "-" = Ok 0 /\ is_left_assoc "-" = Ok true
   /\ forall op p, ret_preced op = Ok p -> p <= 2)
  /\ (forall T (M : MathConcept T),
         str (Token_of (T:=T) RESERVED_TOKEN "^") = "^"
         /\ strs <$> make_rpn RESERVED_TOKEN "2 ^ 3 ^ 2"
            = Ok ["2"; "3"; "2"; "^"; "^"]
         /\ forall tbl x v,
             parse_and_call RESERVED_TOKEN "2 ^ 3 ^ 2" tbl x v
             = Ok (m_pow (of_value 2) (m_pow (of_value 3) (of_value 2))))
  /\ (forall consts uninit tbl x v,
         parse_and_call (M := Cx.math consts uninit)
           (RESERVED_TOKEN (M := Cx.math consts uninit)) "2 ^ 3 ^ 2" tbl x v
         = Ok (Cx.of_R 512)
         /\ Cx.of_R 512 <> Cx.of_R 64)
  /\ (forall T (M : MathConcept T) (reg : gmap string (Token T))
             (token : Token T) (rpn stack : list (Token T)),
         str token ∈ operators ->
         Forall (fun p => type p = Operator -> str p ∈ operators) stack ->
         case_of_Operator reg rpn stack token false
         = Ok (rpn ++ (leaving (str token) stack).1,
               token :: (leaving (str token) stack).2))
  /\ (forall T (M : MathConcept T),
         strs <$> make_rpn RESERVED_TOKEN "1 - 2 - 3"
         = Ok ["1"; "2"; "-"; "3"; "-"]
         /\ strs <$> make_rpn RESERVED_TOKEN "8 / 4 / 2"
            = Ok ["8"; "4"; "/"; "2"; "/"]
         /\ strs <$> make_rpn RESERVED_TOKEN "2 * 3 + 4"
            = Ok ["2"; "3"; "*"; "4"; "+"]
         /\ strs <$> make_rpn RESERVED_TOKEN "2 ^ 3 * 2"
            = Ok ["2"; "3"; "^"; "2"; "*"]
         /\ strs <$> make_rpn RESERVED_TOKEN "2 * 3 ^ 2"
            = Ok ["2"; "3"; "2"; "^"; "*"]
         /\ strs <$> make_rpn RESERVED_TOKEN "1 + 2 * 3 ^ 4 - 5"
            = Ok ["1"; "2"; "3"; "4"; "^"; "*"; "+"; "5"; "-"]
         /\ forall tbl x v,
             parse_and_call RESERVED_TOKEN "1 - 2 - 3" tbl x v
             = Ok (m_sub (m_sub (of_value 1) (of_value 2)) (of_value 3))
             /\ parse_and_call RESERVED_TOKEN "8 / 4 / 2" tbl x v
                = Ok (m_div (m_div (of_value 8) (of_value 4)) (of_value 2))
             /\ parse_and_call RESERVED_TOKEN "2 * 3 + 4" tbl x v
                = Ok (m_add (m_mul (of_value 2) (of_value 3)) (of_value 4))
             /\ parse_and_call RESERVED_TOKEN "1 + 2 * 3 ^ 4 - 5" tbl x v
                = Ok (m_sub
                        (m_add (of_value 1)
                           (m_mul (of_value 2)
                              (m_pow (of_value 3) (of_value 4))))
                        (of_value 5))).
Proof.
  split; [|split; [|split; [|split]]].
  - repeat (split; [by vm_compute|]). apply ret_preced_bound.
  - intros T M. split; [apply caret_token_text|].
    split; [apply rpn_2_caret_3_caret_2|apply call_2_caret_3_caret_2].
  - intros consts uninit tbl x v. split.
    + rewrite call_2_caret_3_caret_2. rewrite !CxFacts.value_Z.
      cbn [m_pow Cx.math].
      rewrite (CxFacts.pow_nat 3 2) by (done || lra).
      replace (3 ^ 2)%R with (IZR 9) by lra.
      rewrite (CxFacts.pow_nat 2 9) by (done || lra).
      do 2 f_equal. lra.
    + intros [= E]. lra.
  - intros T M reg token rpn stack Ht Hs. by apply case_of_Operator_leaving.
  - intros T M.
    split; [apply rpn_1_minus_2_minus_3|].
    split; [apply rpn_8_over_4_over_2|].
    split; [apply rpn_2_times_3_plus_4|].
    split; [apply rpn_2_caret_3_times_2|].
    split; [apply rpn_2_times_3_caret_2|].
    split; [apply rpn_all_levels|].
    intros tbl x v.
    split; [apply call_1_minus_2_minus_3|].
    split; [apply call_8_over_4_over_2|].
    split; [apply call_2_times_3_plus_4|apply call_all_levels].
Qed.

(** ** The closing parenthesis *)

Section RParen.
Context {T : Type} {M : MathConcept T}.

Lemma eq_LPAREN_LPAREN : eq_LPAREN (LPAREN (T:=T)) = true.
Proof.
  unfold eq_LPAREN, LPAREN; simpl.
  by rewrite zero_eqb_zero.
Qed.

(** With an operator right below the parenthesis, [case_of_RParen] emits
    that operator as well: its [func] is not null either. *)
Lemma case_of_RParen_operator (rpn stack : list (Token T)) (op : Token T) :
  type op = Operator -> is_Some (func op) ->
  case_of_RParen rpn (LPAREN :: op :: stack) = Ok (true, (rpn ++ [op], stack)).
Proof.
  intros _ [f Hf]. unfold case_of_RParen.
  cbn [has_LParen existsb]. rewrite eq_LPAREN_LPAREN. cbn.
  rewrite bool_decide_eq_true_2 by done. cbn. by rewrite Hf.
Qed.

Lemma rpn_1_plus_paren_2_times_3 :
  strs <$> make_rpn RESERVED_TOKEN "1 + (2) * 3" = Ok ["1"; "2"; "+"; "3"; "*"].
Proof. run_pipeline. Qed.

Lemma call_1_plus_paren_2_times_3 tbl x v :
  parse_and_call RESERVED_TOKEN "1 + (2) * 3" tbl x v
  = Ok (m_mul (m_add (of_value 1) (of_value 2)) (of_value 3)).
Proof. run_pipeline. Qed.

Lemma rpn_1_plus_2_times_3 :
  strs <$> make_rpn RESERVED_TOKEN "1 + 2 * 3" = Ok ["1"; "2"; "3"; "*"; "+"].
Proof. run_pipeline. Qed.

End RParen.

(** C2 (the code departs from it): an operator found right below the
    left parenthesis is popped and emitted by [case_of_RParen], like a
    function.  In "1 + (2) * 3" the [+] that precedes the group is emitted
    at the closing parenthesis, before [*] is seen; the postfix order is
    1 2 + 3 * and the value (1 + 2) * 3, which is 9 in exact arithmetic,
    where "1 + 2 * 3" gives 1 2 3 * +. *)
Theorem C2_rparen_emits_operator_below :
  (forall T (M : MathConcept T),
      (forall (rpn stack : list (Token T)) (op : Token T),
          type op = Operator -> is_Some (func op) ->
          case_of_RParen rpn (LPAREN :: op :: stack)
          = Ok (true, (rpn ++ [op], stack)))
      /\ strs <$> make_rpn RESERVED_TOKEN "1 + (2) * 3"
         = Ok ["1"; "2"; "+"; "3"; "*"]
      /\ strs <$> make_rpn RESERVED_TOKEN "1 + 2 * 3"
         = Ok ["1"; "2"; "3"; "*"; "+"]
      /\ forall tbl x v,
          parse_and_call RESERVED_TOKEN "1 + (2) * 3" tbl x v
          = Ok (m_mul (m_add (of_value 1) (of_value 2)) (of_value 3)))
  /\ (forall consts uninit tbl x v,
         parse_and_call (M := Cx.math consts uninit)
           (RESERVED_TOKEN (M := Cx.math consts uninit)) "1 + (2) * 3" tbl x v
         = Ok (Cx.of_R 9)).
Proof.
  split.
  - intros T M. split; [apply case_of_RParen_operator|].
    split; [apply rpn_1_plus_paren_2_times_3|].
    split; [apply rpn_1_plus_2_times_3|apply call_1_plus_paren_2_times_3].
  - intros consts uninit tbl x v. rewrite call_1_plus_paren_2_times_3.
    rewrite !CxFacts.value_Z. cbn [m_add m_mul Cx.math].
    rewrite CxFacts.add_real, CxFacts.mul_real. do 2 f_equal. lra.
Qed.

(** ** Unary signs *)

Section UnarySign.
Context {T : Type} {M : MathConcept T}.

(** With the flag set, a [+] is dropped and a [-] becomes the literal -1
    followed by [*]. *)
Lemma unary_plus_dropped (reg : gmap string (Token T))
    (rpn stack : list (Token T)) (token : Token T) :
  str token = "+" -> case_of_Operator reg rpn stack token true = Ok (rpn, stack).
Proof. intros E. unfold case_of_Operator. by rewrite E. Qed.

Lemma unary_minus_rewritten (reg : gmap string (Token T))
    (rpn stack : list (Token T)) (token : Token T) :
  str token = "-" ->
  case_of_Operator reg rpn stack token true
  = ('(r, s) ← pop_operators (Token_of reg "*")
                  (rpn ++ [Token_of reg "-1"]) stack;
     Ok (r, Token_of reg "*" :: s)).
Proof. intros E. unfold case_of_Operator. by rewrite E. Qed.

(** The flag is set by a left parenthesis and by an operator, and cleared
    by a comma. *)
Lemma flag_after_LParen (reg : gmap string (Token T))
    (t : Token T) (rest rpn stack : list (Token T)) (prev : bool) :
  type t = LParen ->
  make_rpn_loop reg (t :: rest) rpn stack prev
  = make_rpn_loop reg rest rpn (t :: stack) true.
Proof. intros E. cbn [make_rpn_loop]. by rewrite E. Qed.

Lemma flag_after_Operator (reg : gmap string (Token T))
    (t : Token T) (rest rpn stack : list (Token T)) (prev : bool) :
  type t = Operator ->
  make_rpn_loop reg (t :: rest) rpn stack prev
  = ('(r, s) ← case_of_Operator reg rpn stack t prev;
     make_rpn_loop reg rest r s true).
Proof. intros E. cbn [make_rpn_loop]. by rewrite E. Qed.

Lemma flag_after_Comma (reg : gmap string (Token T))
    (t : Token T) (rest rpn stack rpn' stack' : list (Token T)) (prev : bool) :
  type t = Comma ->
  case_of_Comma rpn stack = Ok (true, (rpn', stack')) ->
  make_rpn_loop reg (t :: rest) rpn stack prev
  = make_rpn_loop reg rest rpn' stack' false.
Proof. intros E Ec. cbn [make_rpn_loop]. by rewrite E, Ec. Qed.

Lemma call_minus_3_plus_5 tbl x v :
  parse_and_call RESERVED_TOKEN "-3 + 5" tbl x v
  = Ok (m_add (m_mul (of_value (-1)) (of_value 3)) (of_value 5)).
Proof. run_pipeline. Qed.

Lemma call_minus_sin_0 tbl x v :
  parse_and_call RESERVED_TOKEN "-sin(0)" tbl x v
  = Ok (m_mul (of_value (-1)) (m_sin (of_value 0))).
Proof. run_pipeline. Qed.

Lemma rpn_sign_after_paren :
  strs <$> make_rpn RESERVED_TOKEN "pow((-3), 2)"
  = Ok ["-1"; "3"; "*"; "2"; "pow"].
Proof. run_pipeline. Qed.

Lemma rpn_sign_after_operator :
  strs <$> make_rpn RESERVED_TOKEN "2 * +3" = Ok ["2"; "3"; "*"].
Proof. run_pipeline. Qed.

Lemma rpn_sign_after_comma :
  strs <$> make_rpn RESERVED_TOKEN "pow(2, -3)" = Ok ["2"; "3"; "-"; "pow"].
Proof. run_pipeline. Qed.

Lemma parse_sign_after_comma h :
  (parse RESERVED_TOKEN h "pow(2, -3)").1 = Ok (- EINVAL).
Proof. run_pipeline. Qed.

Lemma compile_sign_after_comma :
  compile_formula RESERVED_TOKEN "pow(2, -3)" = Throw (missing_argument "pow").
Proof. run_pipeline. Qed.

End UnarySign.

(** C4 (the code departs from it): a comma clears the flag that a left
    parenthesis sets, so after a comma the sign is not rewritten.
    "pow(2, -3)" becomes 2 3 - pow, the binary [-] with both
    arguments of [pow]; the compiler then misses an argument for [pow] and
    [parse] fails.  After a left parenthesis and at the start of the
    formula the rewriting takes place: "-3 + 5" is (-1 * 3) + 5 and
    "-sin(0)" is -1 * sin 0, which are 2 and 0 in exact arithmetic. *)
Theorem C4_sign_after_comma_is_binary :
  (forall T (M : MathConcept T),
    (forall reg (t : Token T) rest rpn stack rpn' stack' prev,
        type t = Comma ->
        case_of_Comma rpn stack = Ok (true, (rpn', stack')) ->
        make_rpn_loop reg (t :: rest) rpn stack prev
        = make_rpn_loop reg rest rpn' stack' false)
    /\ (forall reg (t : Token T) rest rpn stack prev,
        type t = LParen ->
        make_rpn_loop reg (t :: rest) rpn stack prev
        = make_rpn_loop reg rest rpn (t :: stack) true)
    /\ strs <$> make_rpn RESERVED_TOKEN "pow(2, -3)"
       = Ok ["2"; "3"; "-"; "pow"]
    /\ compile_formula RESERVED_TOKEN "pow(2, -3)"
       = Throw (missing_argument "pow")
    /\ (forall h, (parse RESERVED_TOKEN h "pow(2, -3)").1 = Ok (- EINVAL))
    /\ strs <$> make_rpn RESERVED_TOKEN "pow((-3), 2)"
       = Ok ["-1"; "3"; "*"; "2"; "pow"]
    /\ (forall tbl x v,
        parse_and_call RESERVED_TOKEN "-3 + 5" tbl x v
        = Ok (m_add (m_mul (of_value (-1)) (of_value 3)) (of_value 5)))
    /\ (forall tbl x v,
        parse_and_call RESERVED_TOKEN "-sin(0)" tbl x v
        = Ok (m_mul (of_value (-1)) (m_sin (of_value 0)))))
  /\ (forall consts uninit tbl x v,
         parse_and_call (M := Cx.math consts uninit)
           (RESERVED_TOKEN (M := Cx.math consts uninit)) "-3 + 5" tbl x v
         = Ok (Cx.of_R 2)
         /\ parse_and_call (M := Cx.math consts uninit)
              (RESERVED_TOKEN (M := Cx.math consts uninit)) "-sin(0)" tbl x v
            = Ok (Cx.of_R 0)).
Proof.
  split.
  - intros T M.
    split; [intros; by apply flag_after_Comma|].
    split; [intros; by apply flag_after_LParen|].
    split; [apply rpn_sign_after_comma|].
    split; [apply compile_sign_after_comma|].
    split; [apply parse_sign_after_comma|].
    split; [apply rpn_sign_after_paren|].
    split; [apply call_minus_3_plus_5|apply call_minus_sin_0].
  - intros consts uninit tbl x v. split.
    + rewrite call_minus_3_plus_5. rewrite !CxFacts.value_Z.
      cbn [m_add m_mul Cx.math].
      rewrite CxFacts.mul_real, CxFacts.add_real. do 2 f_equal. lra.
    + rewrite call_minus_sin_0. rewrite !CxFacts.value_Z.
      cbn [m_sin m_mul Cx.math].
      rewrite CxFacts.sin_0, CxFacts.mul_real. do 2 f_equal. lra.
Qed.

(** ** The registry *)

Section Registry.
Context {T : Type} {M : MathConcept T}.

Lemma map_insert_new_absent {V} (k : string) (v : V) (m : gmap string V) :
  m !! k = None -> map_insert_new k v m !! k = Some v.
Proof. intros E. unfold map_insert_new. rewrite E. apply lookup_insert_eq. Qed.

Lemma map_insert_new_present {V} (k : string) (v w : V) (m : gmap string V) :
  m !! k = Some w -> map_insert_new k v m = m.
Proof. intros E. unfold map_insert_new. by rewrite E. Qed.

Lemma map_insert_new_other {V} (k k' : string) (v : V) (m : gmap string V) :
  k ≠ k' -> map_insert_new k v m !! k' = m !! k'.
Proof.
  intros Hne. unfold map_insert_new.
  destruct (m !! k); [done|]. by rewrite lookup_insert_ne.
Qed.

Lemma sin_stays_Func1 (f : option (Func T)) :
  type <$> (add_custom_function RESERVED_TOKEN "sin" Func2 2 f !! "sin")
  = Some Func1.
Proof.
  unfold add_custom_function.
  assert (E : type <$> (RESERVED_TOKEN (T:=T) !! "sin") = Some Func1)
    by run_pipeline.
  destruct (RESERVED_TOKEN (T:=T) !! "sin") as [t|] eqn:Et; [|done].
  by rewrite (map_insert_new_present _ _ t).
Qed.

End Registry.

(** C5, as the claim states it, fails: registering ["sin"] as a function
    of two arguments leaves the built-in entry in place, and a lookup does
    not return the supplied category and arity. *)
Lemma C5_counterexample :
  let M := Cx.math (fun _ => 0%R) 0%Q in
  add_custom_function RESERVED_TOKEN "sin" Func2 2 (Some (fn2 m_pow)) !! "sin"
  <> Some (mkToken "sin" Func2 2 (of_value 0) (Some (fn2 m_pow))).
Proof.
  intros M E. apply (f_equal (fmap type)) in E.
  rewrite sin_stays_Func1 in E. discriminate E.
Qed.

(** C5, amended: registration is total; it adds the entry when the name
    is not in the registry yet, and a lookup then returns the supplied
    category, arity and behaviour; when the name is already there, built-in
    or not, the registry is left as it was; other names are never
    affected. *)
Theorem C5_register_inserts_when_absent :
  forall T (M : MathConcept T) (reg : gmap string (Token T))
         (name : string) (ty : TokenType) (n : Z) (lambda : option (Func T)),
    (reg !! name = None ->
     add_custom_function reg name ty n lambda !! name
     = Some (mkToken name ty n (of_value 0) lambda))
    /\ (forall t, reg !! name = Some t ->
        add_custom_function reg name ty n lambda = reg)
    /\ (forall other, name ≠ other ->
        add_custom_function reg name ty n lambda !! other = reg !! other).
Proof.
  intros T M reg name ty n lambda. unfold add_custom_function.
  split; [apply map_insert_new_absent|].
  split; [intros t; apply map_insert_new_present|].
  intros other. apply map_insert_new_other.
Qed.

(** ** The unary function *)

Section RetFunc.
Context {T : Type} {M : MathConcept T}.

Lemma ret_func_check (h : Syamfp T) (x : string) :
  existsb
    (fun s => negb (VariableTable_contains (table h) s) && negb (String.eqb s x))
    (elements (vars h)) = true
  <-> exists s, unbound h x s.
Proof.
  rewrite existsb_exists. unfold unbound, VariableTable_contains.
  split.
  - intros (s & Hin & Hs). exists s.
    apply andb_true_iff in Hs as [H1 H2].
    apply negb_true_iff, bool_decide_eq_false in H1.
    apply negb_true_iff, String.eqb_neq in H2.
    split; [by apply elem_of_elements, list_elem_of_In|].
    split; [by apply eq_None_not_Some|done].
  - intros (s & Hin & Hnone & Hne). exists s.
    split; [by apply list_elem_of_In, elem_of_elements|].
    apply andb_true_iff. split; apply negb_true_iff.
    + apply bool_decide_eq_false. by apply eq_None_not_Some.
    + by apply String.eqb_neq.
Qed.

End RetFunc.

(** C9: [ret_func] throws the unbound-variable error exactly when some
    name of the free-variable set is neither in the stored table nor the
    designated variable; otherwise it returns the function that, on each
    call, adds the pair (variable, value) to a copy of the table, runs the
    operations from an empty stack and returns the front of the stack. *)
Theorem C9_ret_func_unbound_variable :
  forall T (M : MathConcept T) (h : Syamfp T) (x : string),
    (ret_func h x = Throw undetermined <-> exists s, unbound h x s)
    /\ (ret_func h x = Throw undetermined
        \/ ret_func h x
           = Ok (fun v =>
                   stack ← run (crpn h) [] (<[x := v]> (table h));
                   match last stack with
                   | Some r => Ok r
                   | None => Undefined
                   end)).
Proof.
  intros T M h x. rewrite <- ret_func_check. unfold ret_func.
  destruct (existsb _ _); split; try (by left); try (by right); by split.
Qed.

(** C10: on a handle that was only constructed, [ret_func] passes its
    check, the free-variable set being empty, and the function it returns
    runs no operation and reads the front of an empty stack: undefined
    behaviour, not an error. *)
Theorem C10_ret_func_before_parse :
  forall T (M : MathConcept T) (f : string) (tbl : gmap string T)
         (x : string) (v : T),
    (vars (Syamfp_default (T:=T)) = ∅ /\ crpn (Syamfp_default (T:=T)) = []
     /\ exists g, ret_func Syamfp_default x = Ok g /\ g v = Undefined)
    /\ (vars (Syamfp_new f tbl) = ∅ /\ crpn (Syamfp_new f tbl) = []
        /\ exists g, ret_func (Syamfp_new f tbl) x = Ok g /\ g v = Undefined).
Proof.
  intros T M f tbl x v.
  split; (split; [done|]; split; [done|]);
    unfold ret_func; cbn [vars Syamfp_default Syamfp_new];
    rewrite elements_empty; cbn [existsb]; by eexists.
Qed.

(** ** parse and the state of the handle *)

Section Parse.
Context {T : Type} {M : MathConcept T}.

(** A failure at the postfix stage leaves the handle as it was. *)
Lemma parse_bad_rpn (reg : gmap string (Token T)) (h : Syamfp T) (f : string) :
  make_rpn reg f = Ok BAD_RPNs -> parse reg h f = (Ok (- EINVAL), h).
Proof. intros E. unfold parse. by rewrite E. Qed.

(** No failure touches the stored plan, the formula or the table. *)
Lemma parse_failure_keeps_plan (reg : gmap string (Token T)) (h : Syamfp T)
    (f : string) :
  (parse reg h f).1 ≠ Ok 0 ->
  crpn (parse reg h f).2 = crpn h
  /\ formula (parse reg h f).2 = formula h
  /\ table (parse reg h f).2 = table h.
Proof.
  unfold parse. destruct (make_rpn reg f) as [rpn| |]; [|done..].
  destruct (is_nil rpn); [done|].
  destruct (compile_RPN rpn (vars h)) as [[c| |] vl]; [|done..].
  intros []. done.
Qed.

(** A failure in the compiler replaces the free-variable set by what
    [compile_RPN] had collected when it threw. *)
Lemma parse_compile_failure (reg : gmap string (Token T)) (h : Syamfp T)
    (f : string) (rpn : list (Token T)) (e : exn) (vl : gset string) :
  make_rpn reg f = Ok rpn -> is_nil rpn = false ->
  compile_RPN rpn (vars h) = (Throw e, vl) ->
  parse reg h f = (Ok (- EINVAL), mkSyamfp (formula h) (table h) vl (crpn h)).
Proof. intros Er En Ec. unfold parse. by rewrite Er, En, Ec. Qed.

Lemma parsed_x_plus_y_ok :
  (parse RESERVED_TOKEN (Syamfp_default (T:=T)) "x + y").1 = Ok 0
  /\ vars parsed_x_plus_y = {[ "x"; "y" ]}
  /\ ret_func parsed_x_plus_y "x" = Throw undetermined.
Proof. unfold parsed_x_plus_y. repeat split; run_pipeline. Qed.

Lemma then_failed_state :
  (parse RESERVED_TOKEN parsed_x_plus_y "1 +").1 = Ok (- EINVAL)
  /\ compile_formula RESERVED_TOKEN "1 +" = Throw (missing_argument "+")
  /\ crpn then_failed = crpn parsed_x_plus_y
  /\ formula then_failed = "x + y"
  /\ vars then_failed = ∅.
Proof. unfold then_failed, parsed_x_plus_y. repeat split; run_pipeline. Qed.

Lemma then_failed_call (v : T) :
  (g ← ret_func then_failed "x"; g v) = Throw out_of_range.
Proof. unfold then_failed, parsed_x_plus_y. run_pipeline. Qed.

End Parse.

(** C3 (the code departs from it): a parse that fails in the compiler
    returns the negative code and keeps the stored plan and formula, but
    not the free-variable set, which [compile_RPN] has cleared and refilled
    as its output parameter.  After "x + y" is parsed and "1 +" is
    rejected, the set is empty; [ret_func] no longer reports the
    undetermined [y], and calling the plan that was kept ends in
    [std::out_of_range]. *)
Theorem C3_failed_parse_overwrites_vars :
  forall T (M : MathConcept T),
    (forall reg (h : Syamfp T) f rpn e vl,
        make_rpn reg f = Ok rpn -> is_nil rpn = false ->
        compile_RPN rpn (vars h) = (Throw e, vl) ->
        parse reg h f
        = (Ok (- EINVAL), mkSyamfp (formula h) (table h) vl (crpn h)))
    /\ (parse RESERVED_TOKEN (Syamfp_default (T:=T)) "x + y").1 = Ok 0
    /\ vars (parsed_x_plus_y (T:=T)) = {[ "x"; "y" ]}
    /\ ret_func (parsed_x_plus_y (T:=T)) "x" = Throw undetermined
    /\ (parse RESERVED_TOKEN (parsed_x_plus_y (T:=T)) "1 +").1 = Ok (- EINVAL)
    /\ crpn (then_failed (T:=T)) = crpn parsed_x_plus_y
    /\ formula (then_failed (T:=T)) = formula parsed_x_plus_y
    /\ vars (then_failed (T:=T)) = ∅
    /\ vars (then_failed (T:=T)) ≠ vars parsed_x_plus_y
    /\ forall v : T, (g ← ret_func then_failed "x"; g v) = Throw out_of_range.
Proof.
  intros T M.
  destruct (parsed_x_plus_y_ok (T:=T)) as (H1 & H2 & H3).
  destruct (then_failed_state (T:=T)) as (H4 & _ & H5 & H6 & H7).
  split; [intros; by eapply parse_compile_failure|].
  split; [exact H1|]. split; [exact H2|]. split; [exact H3|].
  split; [exact H4|]. split; [exact H5|]. split.
  { destruct (parse_failure_keeps_plan RESERVED_TOKEN
                (parsed_x_plus_y (T:=T)) "1 +") as (_ & E & _).
    - rewrite H4. discriminate.
    - exact E. }
  split; [exact H7|]. split; [|apply then_failed_call].
  rewrite H7, H2. intros E.
  assert (Hx : "x" ∈ ({[ "x"; "y" ]} : gset string)) by set_solver.
  rewrite <- E in Hx. exact (not_elem_of_empty (C:=gset string) _ Hx).
Qed.

(** ** The compiler and the depth counter *)

Section Compile.
Context {T : Type} {M : MathConcept T}.

Lemma postfix_sequence_cons (t : Token T) (rpn : list (Token T)) :
  postfix_sequence (t :: rpn) = true ->
  is_operand t || is_applied t = true /\ postfix_sequence rpn = true.
Proof. unfold postfix_sequence; cbn [forallb]. apply andb_true_iff. Qed.

(** The loop of the compiler follows the counter, emits one operation per
    token and collects the variables. *)
Lemma compile_loop_walk (rpn : list (Token T)) :
  postfix_sequence rpn = true ->
  forall (cnt : Z) (ops : list (CompiledFunc T)) (vl : gset string),
    (compile_loop rpn cnt ops vl).1
    = outcome_of (depth_walk rpn cnt) (ops ++ map operation_of rpn)
    /\ (depth_walk rpn cnt = depth_good ->
        (compile_loop rpn cnt ops vl).2 = variables_of rpn ∪ vl).
Proof.
  induction rpn as [|t rpn IH]; intros Hp cnt ops vl.
  - cbn. rewrite app_nil_r.
    destruct (Z.eqb_spec cnt 1) as [->|Hne].
    + split; [done|]. intros _. unfold variables_of; cbn.
      by rewrite (left_id_L ∅ (∪)).
    + rewrite bool_decide_eq_true_2 by done. by split.
  - apply postfix_sequence_cons in Hp as [Ht Hp].
    specialize (IH Hp).
    unfold is_operand, is_applied in Ht.
    cbn [compile_loop depth_walk map]. unfold is_operand, operation_of.
    unfold variables_of. cbn [filter list_filter].
    destruct (type t) eqn:Ety; try discriminate Ht;
      rewrite ?decide_True by done; rewrite ?decide_False by done;
      try (destruct (cnt - arg_num t <? 0); [by split|]);
      destruct (IH (cnt + 1) (ops ++ [push_variable t]) ({[str t]} ∪ vl))
        as [IH1 IH2];
      destruct (IH (cnt + 1) (ops ++ [push_value t]) vl) as [IH3 IH4];
      destruct (IH (cnt - arg_num t + 1) (ops ++ [apply_func t]) vl)
        as [IH5 IH6];
      rewrite <- ?app_assoc in *; cbn [app] in *.
    + split; [exact IH1|]. intros Hw. rewrite (IH2 Hw).
      unfold variables_of. cbn [map list_to_set].
      rewrite (assoc_L (∪)). f_equal. apply (comm_L (∪)).
    + split; [exact IH3|]. intros Hw. by rewrite (IH4 Hw).
    + split; [exact IH3|]. intros Hw. by rewrite (IH4 Hw).
    + split; [exact IH3|]. intros Hw. by rewrite (IH4 Hw).
    + split; [exact IH5|]. intros Hw. by rewrite (IH6 Hw).
    + split; [exact IH5|]. intros Hw. by rewrite (IH6 Hw).
    + split; [exact IH5|]. intros Hw. by rewrite (IH6 Hw).
    + split; [exact IH5|]. intros Hw. by rewrite (IH6 Hw).
Qed.

Lemma compile_pow_1 :
  strs <$> make_rpn RESERVED_TOKEN "pow(1)" = Ok ["1"; "pow"]
  /\ compile_formula RESERVED_TOKEN "pow(1)" = Throw (missing_argument "pow").
Proof. split; run_pipeline. Qed.

Lemma parse_pow_1 (h : Syamfp T) :
  parse RESERVED_TOKEN h "pow(1)"
  = (Ok (- EINVAL), mkSyamfp (formula h) (table h) ∅ (crpn h)).
Proof. run_pipeline. Qed.

End Compile.

(** C6: on a postfix sequence the compiler succeeds exactly when the depth
    counter, started at 0, never goes below zero at an operator or function
    and ends at 1; it reports the first symbol whose arity the depth cannot
    pay, or else too many arguments; on success it has emitted one
    operation per token and recorded the names of the variables.  "pow(1)"
    reaches the compiler as 1 pow and is rejected with the missing-argument
    error, so [parse] fails. *)
Theorem C6_compile_follows_depth_counter :
  forall T (M : MathConcept T) (rpn : list (Token T)) (vl : gset string),
    postfix_sequence rpn = true ->
    (compile_RPN rpn vl).1
    = outcome_of (depth_walk rpn 0) (map operation_of rpn)
    /\ ((exists ops, (compile_RPN rpn vl).1 = Ok ops)
        <-> depth_walk rpn 0 = depth_good)
    /\ (depth_walk rpn 0 = depth_good ->
        (compile_RPN rpn vl).2 = variables_of rpn)
    /\ strs <$> make_rpn RESERVED_TOKEN "pow(1)" = Ok ["1"; "pow"]
    /\ compile_formula RESERVED_TOKEN "pow(1)" = Throw (missing_argument "pow")
    /\ forall h, (parse RESERVED_TOKEN h "pow(1)").1 = Ok (- EINVAL).
Proof.
  intros T M rpn vl Hp. unfold compile_RPN.
  destruct (compile_loop_walk rpn Hp 0 [] ∅) as [H1 H2].
  cbn [app] in H1. split; [exact H1|]. split.
  { rewrite H1. destruct (depth_walk rpn 0); cbn.
    - split; [done|]. intros _. by eexists.
    - split; [by intros [ops [=]]|done].
    - split; [by intros [ops [=]]|done]. }
  split.
  { intros Hw. rewrite (H2 Hw). by rewrite (right_id_L ∅ (∪)). }
  split; [apply compile_pow_1|]. split; [apply compile_pow_1|].
  intros h. by rewrite parse_pow_1.
Qed.

Lemma C6_witness :
  let M := Cx.math (fun _ => 0%R) 0%Q in
  let rpn := [Token_of RESERVED_TOKEN "1"; Token_of RESERVED_TOKEN "pow"] in
  postfix_sequence rpn = true
  /\ (compile_RPN rpn ∅).1 = Throw (missing_argument "pow").
Proof.
  intros M rpn.
  assert (Hp : postfix_sequence rpn = true) by reflexivity.
  split; [exact Hp|].
  rewrite (proj1 (C6_compile_follows_depth_counter _ M rpn ∅ Hp)).
  reflexivity.
Defined.

(** ** Running a compiled plan *)

Section Run.
Context {T : Type} {M : MathConcept T}.

Lemma run_app (ops1 ops2 : list (CompiledFunc T)) (stack : list T)
    (tbl : gmap string T) :
  run (ops1 ++ ops2) stack tbl
  = (stack' ← run ops1 stack tbl; run ops2 stack' tbl).
Proof.
  revert stack. induction ops1 as [|f ops1 IH]; intros stack; [done|].
  cbn [app run]. destruct (call f stack tbl) as [s| |]; cbn; [apply IH|done..].
Qed.

(** A run that succeeds has succeeded on every prefix. *)
Lemma run_prefix (ops : list (CompiledFunc T)) (tbl : gmap string T)
    (stack final : list T) (k : nat) :
  run ops stack tbl = Ok final ->
  exists mid, run (take k ops) stack tbl = Ok mid.
Proof.
  rewrite <- (take_drop k ops) at 1. rewrite run_app.
  destruct (run (take k ops) stack tbl) as [mid| |]; [by eexists|done..].
Qed.

Lemma pop_args_enough (k : nat) (stack args : list T) :
  (k <= length stack)%nat ->
  exists args', pop_args k stack args = Ok (args', drop k stack).
Proof.
  revert stack args. induction k as [|k IH]; intros stack args Hk.
  - exists args. by rewrite drop_0.
  - destruct stack as [|v stack]; [cbn in Hk; lia|].
    cbn in Hk. cbn [pop_args drop]. apply IH. lia.
Qed.

Lemma call_apply_func (t : Token T) (stack : list T) (tbl : gmap string T) :
  0 <= arg_num t -> is_Some (func t) ->
  arg_num t <= Z.of_nat (length stack) ->
  exists v,
    call (apply_func t) stack tbl = Ok (v :: drop (Z.to_nat (arg_num t)) stack).
Proof.
  intros Hn [f Hf] Hlen. cbn [call].
  destruct (Z.ltb_spec (arg_num t) 0) as [?|_]; [lia|].
  destruct (pop_args_enough (Z.to_nat (arg_num t)) stack []) as [args ->]; [lia|].
  cbn. rewrite Hf. by eexists.
Qed.

Lemma well_formed_cons (t : Token T) (rpn : list (Token T)) :
  well_formed (t :: rpn) = true ->
  (is_operand t || is_applied t = true)
  /\ applicable t = true
  /\ well_formed rpn = true.
Proof.
  unfold well_formed, postfix_sequence. cbn [forallb].
  rewrite !andb_true_iff. tauto.
Qed.

Lemma variables_of_cons_subseteq (t : Token T) (rpn : list (Token T)) :
  variables_of rpn ⊆ variables_of (t :: rpn).
Proof.
  unfold variables_of. cbn [filter list_filter].
  destruct (decide (type t = Variable_)); [|done].
  cbn [map list_to_set]. apply union_subseteq_r.
Qed.

Lemma variables_of_head (t : Token T) (rpn : list (Token T)) :
  type t = Variable_ -> str t ∈ variables_of (t :: rpn).
Proof.
  intros Ht. unfold variables_of. cbn [filter list_filter].
  rewrite decide_True by done. cbn [map list_to_set].
  apply elem_of_union_l. by apply elem_of_singleton.
Qed.

(** The counter is the height of the stack: where the counter accepts the
    sequence, running its operations from a stack of that height ends with
    exactly one value. *)
Lemma run_operations (rpn : list (Token T)) (tbl : gmap string T) :
  well_formed rpn = true ->
  variables_of rpn ⊆ dom tbl ->
  forall (cnt : Z) (stack : list T),
    depth_walk rpn cnt = depth_good ->
    Z.of_nat (length stack) = cnt ->
    exists v, run (map operation_of rpn) stack tbl = Ok [v].
Proof.
  induction rpn as [|t rpn IH]; intros Hwf Hdom cnt stack Hw Hlen.
  - cbn in Hw. destruct (Z.eqb_spec cnt 1) as [->|]; [|done].
    destruct stack as [|v [|w stack]]; cbn in Hlen; try lia. by exists v.
  - apply well_formed_cons in Hwf as (Hcat & Happ & Hwf).
    assert (Hdom' : variables_of rpn ⊆ dom tbl).
    { etrans; [apply variables_of_cons_subseteq|exact Hdom]. }
    specialize (IH Hwf Hdom').
    cbn [map run]. cbn [depth_walk] in Hw.
    unfold applicable, is_applied in Happ.
    unfold is_operand, is_applied in Hcat.
    unfold is_operand in Hw. unfold operation_of.
    destruct (type t) eqn:Ety; try discriminate Hcat.
    1: { assert (Hin : str t ∈ dom tbl)
           by (apply Hdom, variables_of_head, Ety).
         apply elem_of_dom in Hin as [v Hv].
         cbn [call]. unfold VariableTable_at, map_at. rewrite Hv. cbn.
         apply (IH (cnt + 1)); [exact Hw|]. cbn [length]. lia. }
    1-3: cbn; apply (IH (cnt + 1)); [exact Hw|]; cbn [length]; lia.
    all: cbn [negb orb] in Happ;
      apply andb_true_iff in Happ as [Hn Hf];
      apply Z.leb_le in Hn; apply bool_decide_eq_true in Hf;
      destruct (Z.ltb_spec (cnt - arg_num t) 0) as [|Hge]; [done|];
      destruct (call_apply_func t stack tbl Hn Hf) as [v ->]; [lia|];
      cbn; apply (IH (cnt - arg_num t + 1)); [exact Hw|];
      cbn [length]; rewrite length_drop; lia.
Qed.

End Run.

Section RunCompiled.
Context {T : Type} {M : MathConcept T}.

(** The operations of a successful compile leave exactly one value. *)
Lemma run_compiled (rpn : list (Token T)) (vl : gset string)
    (ops : list (CompiledFunc T)) (names : gset string) (tbl : gmap string T) :
  well_formed rpn = true ->
  compile_RPN rpn vl = (Ok ops, names) ->
  names ⊆ dom tbl ->
  exists v, run ops [] tbl = Ok [v].
Proof.
  intros Hwf Hc Hdom.
  assert (Hp : postfix_sequence rpn = true).
  { unfold well_formed in Hwf. by apply andb_true_iff in Hwf as [? _]. }
  destruct (compile_loop_walk rpn Hp 0 [] ∅) as [H1 H2].
  unfold compile_RPN in Hc. rewrite Hc in H1, H2. cbn [fst snd app] in H1, H2.
  destruct (depth_walk rpn 0) eqn:Hw; try discriminate H1.
  injection H1 as ->. specialize (H2 eq_refl).
  rewrite (right_id_L ∅ (∪)) in H2. subst names.
  exact (run_operations rpn tbl Hwf Hdom 0 [] Hw eq_refl).
Qed.

End RunCompiled.

(** C7: for the operations a successful compile produces from a postfix
    sequence (operands, and operators and functions that have a behaviour
    and an arity that is not negative), and a table holding every recorded
    variable, the run from the empty stack succeeds on every prefix, so no
    operation pops an empty stack, and it ends with exactly one value on
    the stack, the value the evaluation function returns. *)
Theorem C7_run_never_underflows :
  forall T (M : MathConcept T) (rpn : list (Token T)) (vl : gset string)
         (ops : list (CompiledFunc T)) (names : gset string)
         (tbl : gmap string T),
    well_formed rpn = true ->
    compile_RPN rpn vl = (Ok ops, names) ->
    names ⊆ dom tbl ->
    exists v,
      run ops [] tbl = Ok [v]
      /\ (forall k, exists mid, run (take k ops) [] tbl = Ok mid)
      /\ (forall Table x val,
          tbl = <[x := val]> Table -> ret_func_closure Table ops x val = Ok v).
Proof.
  intros T M rpn vl ops names tbl Hwf Hc Hdom.
  destruct (run_compiled rpn vl ops names tbl Hwf Hc Hdom) as [v Hv].
  exists v. split; [exact Hv|]. split.
  - intros k. by apply (run_prefix _ _ _ [v]).
  - intros Table x val ->. unfold ret_func_closure, VariableTable_add.
    by rewrite Hv.
Qed.

Lemma C7_witness :
  let M := Cx.math (fun _ => 0%R) 0%Q in
  let tx := mkToken "x" Variable_ 0 (of_value 0) None in
  let t1 := mkToken "1" Real 0 (of_value 1) None in
  let plus := mkToken "+" Operator 2 (of_value 0) (Some (fn2 m_add)) in
  let rpn := [tx; t1; plus] in
  let ops := [push_variable tx; push_value t1; apply_func plus] in
  let tbl : gmap string Cx.C := {[ "x" := Cx.of_R 2 ]} in
  well_formed rpn = true
  /\ compile_RPN rpn ∅ = (Ok ops, {[ "x" ]})
  /\ {[ "x" ]} ⊆ dom tbl
  /\ exists v, run ops [] tbl = Ok [v].
Proof.
  intros M tx t1 plus rpn ops tbl.
  assert (Hwf : well_formed rpn = true) by reflexivity.
  assert (Hc : compile_RPN rpn ∅ = (Ok ops, {[ "x" ]})) by reflexivity.
  assert (Hdom : ({[ "x" ]} : gset string) ⊆ dom tbl).
  { unfold tbl. rewrite dom_singleton_L. done. }
  split; [exact Hwf|]. split; [exact Hc|]. split; [exact Hdom|].
  destruct (C7_run_never_underflows _ M rpn ∅ ops {[ "x" ]} tbl Hwf Hc Hdom)
    as (v & Hv & _).
  by exists v.
Defined.

(** ** What the converter emits under the built-in registry *)

Section Emitted.
Context {T : Type} {M : MathConcept T}.

Lemma Token_of_ok (s : string) : token_ok (Token_of RESERVED_TOKEN s).
Proof.
  unfold Token_of.
  destruct (RESERVED_TOKEN (T:=T) !! s) as [t|] eqn:E.
  - apply elem_of_list_to_map_2 in E.
    unfold RESERVED_TOKEN_init, op_entry, punct_entry, const_entry,
      func1_entry, func2_entry in E.
    repeat (apply elem_of_cons in E as [E|E];
            [injection E as -> ->; unfold token_ok; cbn;
             first [done | apply eq_LPAREN_LPAREN]|]).
    by apply elem_of_nil in E.
  - destruct (is_real s); [done|]. by destruct (is_imaginary s).
Qed.

Lemma devide_step_ok (st : list (Token T) * string) (c : ascii) :
  Forall token_ok st.1 -> Forall token_ok (devide_step RESERVED_TOKEN st c).1.
Proof.
  destruct st as [tokens s]. cbn [fst]. intros H. unfold devide_step.
  assert (H' : Forall token_ok (tokens ++ [Token_of RESERVED_TOKEN s])).
  { apply Forall_app. split; [done|]. apply Forall_singleton, Token_of_ok. }
  repeat match goal with |- context [if ?b then _ else _] => destruct b end;
    done.
Qed.

Lemma devide_to_tokens_ok (f : string) :
  Forall token_ok (devide_to_tokens RESERVED_TOKEN f).
Proof.
  unfold devide_to_tokens.
  assert (H : forall l st, Forall token_ok st.1 ->
            Forall token_ok (fold_left (devide_step RESERVED_TOKEN) l st).1).
  { induction l as [|c l IH]; intros st Hst; [done|].
    cbn [fold_left]. by apply IH, devide_step_ok. }
  specialize (H (list_ascii_of_string f) ([], EmptyString) (Forall_nil_2 _)).
  destruct (fold_left _ _ _) as [tokens s]. cbn [fst] in H.
  destruct (is_empty s); [done|].
  apply Forall_app. split; [done|]. apply Forall_singleton, Token_of_ok.
Qed.

Lemma stacked_not_LParen (t : Token T) :
  stacked_ok t -> type t ≠ LParen -> emitted_ok t.
Proof.
  intros [H|[H _]] Hne; [|done]. unfold emitted_ok.
  apply andb_true_iff in H as [-> ->]. by rewrite orb_true_r.
Qed.

Lemma stacked_not_LPAREN (t : Token T) :
  stacked_ok t -> eq_LPAREN t = false -> emitted_ok t.
Proof.
  intros H Hne. apply stacked_not_LParen; [done|].
  intros Hty. destruct H as [H|[_ H]]; [|congruence].
  apply andb_true_iff in H as [H _]. unfold is_applied in H.
  by rewrite Hty in H.
Qed.

Lemma emitted_snoc (rpn : list (Token T)) (t : Token T) :
  Forall emitted_ok rpn -> emitted_ok t -> Forall emitted_ok (rpn ++ [t]).
Proof. intros. apply Forall_app. split; [done|]. by apply Forall_singleton. Qed.

Lemma pop_until_LParen_ok (stack rpn rpn' stack' : list (Token T)) :
  Forall emitted_ok rpn -> Forall stacked_ok stack ->
  pop_until_LParen rpn stack = Ok (rpn', stack') ->
  Forall emitted_ok rpn' /\ Forall stacked_ok stack'.
Proof.
  revert rpn. induction stack as [|t stack IH]; intros rpn Hr Hs; [done|].
  apply Forall_cons in Hs as [Ht Hs]. cbn [pop_until_LParen].
  case_bool_decide as Hty.
  - intros [= <- <-]. done.
  - apply IH; [|done]. by apply emitted_snoc, stacked_not_LParen.
Qed.

Lemma case_of_RParen_ok (rpn stack rpn' stack' : list (Token T)) (b : bool) :
  Forall emitted_ok rpn -> Forall stacked_ok stack ->
  case_of_RParen rpn stack = Ok (b, (rpn', stack')) ->
  Forall emitted_ok rpn' /\ Forall stacked_ok stack'.
Proof.
  intros Hr Hs. unfold case_of_RParen.
  destruct (has_LParen stack); cbn [negb]; [|by intros [= _ <- <-]].
  destruct (pop_until_LParen rpn stack) as [[r1 s1]| |] eqn:E; [|done..].
  destruct (pop_until_LParen_ok _ _ _ _ Hr Hs E) as [Hr1 Hs1].
  cbn. destruct s1 as [|t s1]; [by intros [= _ <- <-]|].
  apply Forall_cons in Hs1 as [Ht Hs1].
  destruct (func t) as [f|] eqn:Hf; intros [= _ <- <-].
  - split; [|done]. apply emitted_snoc; [done|].
    apply stacked_not_LPAREN; [done|].
    unfold eq_LPAREN. rewrite Hf. cbn.
    by rewrite andb_false_r.
  - split; [done|]. by apply Forall_cons.
Qed.

Lemma pop_to_LPAREN_ok (stack rpn rpn' stack' : list (Token T)) :
  Forall emitted_ok rpn -> Forall stacked_ok stack ->
  pop_to_LPAREN rpn stack = Ok (rpn', stack') ->
  Forall emitted_ok rpn' /\ Forall stacked_ok stack'.
Proof.
  revert rpn. induction stack as [|t stack IH]; intros rpn Hr Hs; [done|].
  cbn [pop_to_LPAREN]. destruct (eq_LPAREN t) eqn:Et.
  - by intros [= <- <-].
  - apply Forall_cons in Hs as [Ht Hs].
    apply IH; [|done]. by apply emitted_snoc, stacked_not_LPAREN.
Qed.

Lemma case_of_Comma_ok (rpn stack rpn' stack' : list (Token T)) (b : bool) :
  Forall emitted_ok rpn -> Forall stacked_ok stack ->
  case_of_Comma rpn stack = Ok (b, (rpn', stack')) ->
  Forall emitted_ok rpn' /\ Forall stacked_ok stack'.
Proof.
  intros Hr Hs. unfold case_of_Comma.
  destruct (has_LParen stack); cbn [negb]; [|by intros [= _ <- <-]].
  destruct (pop_to_LPAREN rpn stack) as [[r1 s1]| |] eqn:E; [|done..].
  destruct (pop_to_LPAREN_ok _ _ _ _ Hr Hs E) as [Hr1 Hs1].
  cbn. by intros [= _ <- <-].
Qed.

Lemma pop_operators_ok (token : Token T) (stack rpn rpn' stack' : list (Token T)) :
  Forall emitted_ok rpn -> Forall stacked_ok stack ->
  pop_operators token rpn stack = Ok (rpn', stack') ->
  Forall emitted_ok rpn' /\ Forall stacked_ok stack'.
Proof.
  revert rpn. induction stack as [|t stack IH]; intros rpn Hr Hs.
  - by intros [= <- <-].
  - cbn [pop_operators]. case_bool_decide as Hty; [by intros [= <- <-]|].
    destruct (ret_preced (str token)) as [pt| |]; [|done..].
    destruct (ret_preced (str t)) as [pp| |]; [|done..].
    destruct (is_left_assoc (str token)) as [left| |]; [|done..].
    cbn. destruct (if left then _ else _); [by intros [= <- <-]|].
    apply Forall_cons in Hs as [Ht Hs].
    apply IH; [|done]. apply emitted_snoc, stacked_not_LParen; [done..|].
    congruence.
Qed.

Lemma minus_one_token :
  emitted_ok (Token_of (T:=T) RESERVED_TOKEN "-1").
Proof. unfold emitted_ok. run_pipeline. Qed.

Lemma times_token :
  stacked_ok (Token_of (T:=T) RESERVED_TOKEN "*").
Proof. left. run_pipeline. Qed.

Lemma token_stacked (t : Token T) :
  token_ok t -> is_applied t = true -> stacked_ok t.
Proof.
  unfold token_ok, is_applied. intros H Ha. left.
  unfold is_applied. destruct (type t); try discriminate Ha; by rewrite H.
Qed.

Lemma case_of_Operator_ok (rpn stack rpn' stack' : list (Token T))
    (token : Token T) (prev : bool) :
  token_ok token -> type token = Operator ->
  Forall emitted_ok rpn -> Forall stacked_ok stack ->
  case_of_Operator RESERVED_TOKEN rpn stack token prev = Ok (rpn', stack') ->
  Forall emitted_ok rpn' /\ Forall stacked_ok stack'.
Proof.
  intros Ht Hty Hr Hs. unfold case_of_Operator.
  assert (Hst : stacked_ok token).
  { apply token_stacked; [done|]. unfold is_applied. by rewrite Hty. }
  assert (Hm := minus_one_token). assert (Hx := times_token).
  set (m1 := Token_of RESERVED_TOKEN "-1") in *.
  set (star := Token_of RESERVED_TOKEN "*") in *.
  clearbody m1 star.
  destruct (prev && String.eqb (str token) "+"); [by intros [= <- <-]|].
  destruct (prev && String.eqb (str token) "-").
  - destruct (pop_operators _ _ _) as [[r1 s1]| |] eqn:E; [|done..].
    apply pop_operators_ok in E as [Hr1 Hs1]; [|by apply emitted_snoc|done].
    cbn. intros [= <- <-]. split; [done|]. by apply Forall_cons.
  - destruct (pop_operators _ _ _) as [[r1 s1]| |] eqn:E; [|done..].
    apply pop_operators_ok in E as [Hr1 Hs1]; [|done..].
    cbn. intros [= <- <-]. split; [done|]. by apply Forall_cons.
Qed.

Lemma push_remaining_ok (stack rpn : list (Token T)) :
  Forall emitted_ok rpn -> Forall stacked_ok stack ->
  Forall emitted_ok (push_remaining rpn stack).
Proof.
  revert rpn. induction stack as [|t stack IH]; intros rpn Hr Hs; [done|].
  cbn [push_remaining]. destruct (has_LParen (t :: stack)) eqn:E; [done|].
  cbn [has_LParen existsb] in E. apply orb_false_iff in E as [Et _].
  apply Forall_cons in Hs as [Ht Hs].
  apply IH; [|done]. by apply emitted_snoc, stacked_not_LPAREN.
Qed.

Lemma make_rpn_loop_ok (tokens : list (Token T)) :
  Forall token_ok tokens ->
  forall (rpn stack : list (Token T)) (prev : bool) (out : list (Token T)),
    Forall emitted_ok rpn -> Forall stacked_ok stack ->
    make_rpn_loop RESERVED_TOKEN tokens rpn stack prev = Ok out ->
    Forall emitted_ok out.
Proof.
  induction tokens as [|t tokens IH]; intros Hts rpn stack prev out Hr Hs.
  - cbn. intros [= <-]. by apply push_remaining_ok.
  - apply Forall_cons in Hts as [Ht Hts]. specialize (IH Hts).
    cbn [make_rpn_loop].
    destruct (type t) eqn:Hty.
    1-4: apply IH; [|done]; apply emitted_snoc; [done|];
      unfold emitted_ok, applicable, is_operand, is_applied;
      by rewrite Hty.
    2-4: apply IH; [done|]; apply Forall_cons; split; [|done];
      apply token_stacked; [done|]; unfold is_applied; by rewrite Hty.
    + destruct (case_of_Operator _ _ _ _ _) as [[r1 s1]| |] eqn:E; [|done..].
      apply case_of_Operator_ok in E as [Hr1 Hs1]; [|done..].
      cbn. by apply IH.
    + apply IH; [done|]. apply Forall_cons. split; [|done].
      right. split; [done|]. unfold token_ok in Ht. by rewrite Hty in Ht.
    + destruct (case_of_RParen rpn stack) as [[b [r1 s1]]| |] eqn:E; [|done..].
      apply case_of_RParen_ok in E as [Hr1 Hs1]; [|done..].
      cbn. destruct b; [by apply IH|]. by intros [= <-].
    + destruct (case_of_Comma rpn stack) as [[b [r1 s1]]| |] eqn:E; [|done..].
      apply case_of_Comma_ok in E as [Hr1 Hs1]; [|done..].
      cbn. destruct b; [by apply IH|]. by intros [= <-].
Qed.

(** Every postfix sequence [make_rpn] produces under the built-in registry
    is well formed. *)
Lemma make_rpn_well_formed (f : string) (rpn : list (Token T)) :
  make_rpn RESERVED_TOKEN f = Ok rpn -> well_formed rpn = true.
Proof.
  intros E. unfold make_rpn in E.
  apply make_rpn_loop_ok in E; [|apply devide_to_tokens_ok|done..].
  unfold well_formed, postfix_sequence.
  apply andb_true_iff. split; apply forallb_forall; intros t Hin;
    apply list_elem_of_In in Hin;
    apply (proj1 (Forall_forall _ _) E) in Hin;
    unfold emitted_ok in Hin; by apply andb_true_iff in Hin as [? ?].
Qed.

End Emitted.

(** ** From [parse] to the call *)

Section EndToEnd.
Context {T : Type} {M : MathConcept T}.

Lemma ret_func_no_unbound (h : Syamfp T) (x : string) (g : T -> result T) :
  ret_func h x = Ok g ->
  g = ret_func_closure (table h) (crpn h) x
  /\ forall v, vars h ⊆ dom (<[x := v]> (table h)).
Proof.
  unfold ret_func. destruct (existsb _ _) eqn:E; [done|].
  intros [= <-]. split; [done|]. intros v s Hs.
  rewrite dom_insert. destruct (decide (s = x)) as [->|Hne]; [set_solver|].
  apply elem_of_union_r, elem_of_dom.
  destruct (table h !! s) as [w|] eqn:Hw; [done|].
  assert (Hex : exists s, unbound h x s) by (by exists s).
  apply ret_func_check in Hex. congruence.
Qed.

(** Under the built-in registry, the function [ret_func] returns after a
    successful [parse] always yields a value: its run neither pops an
    empty stack nor misses a variable. *)
Theorem parse_then_call_yields_value (h h' : Syamfp T) (f x : string)
    (g : T -> result T) (v : T) :
  parse RESERVED_TOKEN h f = (Ok 0, h') ->
  ret_func h' x = Ok g ->
  exists r, g v = Ok r.
Proof.
  unfold parse.
  destruct (make_rpn RESERVED_TOKEN f) as [rpn| |] eqn:Er; [|done..].
  destruct (is_nil rpn); [done|].
  destruct (compile_RPN rpn (vars h)) as [[c| |] vl] eqn:Ec; [|done..].
  intros [= <-] Hg.
  apply ret_func_no_unbound in Hg as [-> Hdom]. cbn in Hdom |- *.
  destruct (run_compiled rpn (vars h) c vl (<[x := v]> (table h))) as [r Hr].
  - by apply (make_rpn_well_formed f).
  - exact Ec.
  - apply Hdom.
  - exists r. unfold ret_func_closure, VariableTable_add. by rewrite Hr.
Qed.

End EndToEnd.

(** ** The scanner: characters, texts, literals *)

Section Tok.
Context {T : Type} {M : MathConcept T}.

Lemma Token_of_str (reg : gmap string (Token T)) (s : string) :
  str (Token_of reg s) = s.
Proof.
  unfold Token_of. destruct (reg !! s); [done|].
  destruct (is_real s); [done|]. by destruct (is_imaginary s).
Qed.

Lemma list_ascii_app (s t : string) :
  list_ascii_of_string (s +:+ t)
  = list_ascii_of_string s ++ list_ascii_of_string t.
Proof.
  induction s as [|c s IH]; [done|].
  change (c :: list_ascii_of_string (s +:+ t) = c :: (list_ascii_of_string s ++ list_ascii_of_string t)).
  by rewrite IH.
Qed.

Lemma is_empty_spec (s : string) :
  is_empty s = true <-> s = EmptyString.
Proof. by destruct s. Qed.

Lemma chars_of_snoc (tokens : list (Token T)) (t : Token T) :
  chars_of (tokens ++ [t]) = chars_of tokens ++ list_ascii_of_string (str t).
Proof.
  unfold chars_of. rewrite map_app, concat_app. cbn. by rewrite app_nil_r.
Qed.

Lemma devide_step_chars (reg : gmap string (Token T))
    (st : list (Token T) * string) (c : ascii) :
  scan_chars (devide_step reg st c)
  = scan_chars st ++ (if isspace c then [] else [c]).
Proof.
  destruct st as [tokens s]. unfold devide_step, scan_chars.
  destruct (isspace c).
  - destruct (is_empty s) eqn:Es; cbn [fst snd].
    + by rewrite app_nil_r.
    + rewrite chars_of_snoc, Token_of_str. cbn. by rewrite !app_nil_r.
  - destruct (is_empty s) eqn:Es.
    { apply is_empty_spec in Es as ->. cbn [fst snd]. cbn. by rewrite app_nil_r. }
    destruct (is_operator reg (s +:+ char_string c)); cbn [fst snd].
    { rewrite list_ascii_app. cbn. by rewrite <- ?app_assoc. }
    destruct (is_operator reg s || is_operator reg (char_string c));
      cbn [fst snd].
    + rewrite chars_of_snoc, Token_of_str. cbn. by rewrite <- ?app_assoc.
    + rewrite list_ascii_app. cbn. by rewrite <- ?app_assoc.
Qed.

Lemma fold_devide_chars (reg : gmap string (Token T)) (l : list ascii)
    (st : list (Token T) * string) :
  scan_chars (fold_left (devide_step reg) l st)
  = scan_chars st ++ List.filter (fun c => negb (isspace c)) l.
Proof.
  revert st. induction l as [|c l IH]; intros st.
  - cbn. by rewrite app_nil_r.
  - cbn [fold_left List.filter]. rewrite IH, devide_step_chars.
    rewrite <- app_assoc. f_equal. by destruct (isspace c).
Qed.

Lemma devide_to_tokens_chars (reg : gmap string (Token T)) (formula : string) :
  chars_of (devide_to_tokens reg formula) = squeezed formula.
Proof.
  unfold devide_to_tokens, squeezed.
  pose proof (fold_devide_chars reg (list_ascii_of_string formula)
                ([], EmptyString)) as H.
  destruct (fold_left _ _ _) as [tokens s]. unfold scan_chars in H.
  cbn in H. destruct (is_empty s) eqn:Es.
  - apply is_empty_spec in Es as ->. cbn in H. by rewrite app_nil_r in H.
  - by rewrite chars_of_snoc, Token_of_str.
Qed.

Lemma text_ok_char (c : ascii) : isspace c = false -> text_ok (char_string c).
Proof. intros H. split; [done|]. cbn. by rewrite H. Qed.

Lemma text_ok_app (s : string) (c : ascii) :
  forallb (fun c => negb (isspace c)) (list_ascii_of_string s) = true ->
  isspace c = false -> text_ok (s +:+ char_string c).
Proof.
  intros Hs Hc. split.
  - by destruct s.
  - rewrite list_ascii_app, forallb_app, Hs. cbn. by rewrite Hc.
Qed.

Lemma devide_step_texts (reg : gmap string (Token T))
    (st : list (Token T) * string) (c : ascii) :
  scan_ok st -> scan_ok (devide_step reg st c).
Proof.
  destruct st as [tokens s]. intros [Ht Hs]. cbn [fst snd] in *.
  assert (Hflush : is_empty s = false ->
            Forall (fun t => text_ok (str t)) (tokens ++ [Token_of reg s])).
  { intros Es. apply Forall_app. split; [done|]. apply Forall_singleton.
    rewrite Token_of_str. split; [|done]. intros ->. done. }
  unfold devide_step. destruct (isspace c) eqn:Ec.
  - destruct (is_empty s) eqn:Es; split; cbn [fst snd]; auto.
  - destruct (is_empty s) eqn:Es.
    { split; [done|]. cbn. by rewrite Ec. }
    destruct (is_operator reg (s +:+ char_string c)).
    { split; [done|]. by apply text_ok_app. }
    destruct (is_operator reg s || is_operator reg (char_string c)).
    + split; cbn [fst snd]; [auto|]. cbn. by rewrite Ec.
    + split; [done|]. by apply text_ok_app.
Qed.

Lemma devide_to_tokens_texts (reg : gmap string (Token T)) (formula : string) :
  Forall (fun t => text_ok (str t)) (devide_to_tokens reg formula).
Proof.
  unfold devide_to_tokens.
  assert (H : forall l st, scan_ok st ->
            scan_ok (fold_left (devide_step reg) l st)).
  { induction l as [|c l IH]; intros st Hst; [done|].
    cbn [fold_left]. by apply IH, devide_step_texts. }
  specialize (H (list_ascii_of_string formula) ([], EmptyString)).
  destruct (fold_left _ _ _) as [tokens s].
  destruct H as [Ht Hs]; [by split|]. cbn [fst snd] in *.
  destruct (is_empty s) eqn:Es; [done|].
  apply Forall_app. split; [done|]. apply Forall_singleton.
  rewrite Token_of_str. split; [|done]. by intros ->.
Qed.

(** A formula of white space only has no token. *)
Lemma blank_formula_tokens (reg : gmap string (Token T)) (formula : string) :
  forallb isspace (list_ascii_of_string formula) = true ->
  devide_to_tokens reg formula = [].
Proof.
  intros Hb.
  pose proof (devide_to_tokens_chars reg formula) as Hc.
  pose proof (devide_to_tokens_texts reg formula) as Ht.
  assert (Hs : squeezed formula = []).
  { unfold squeezed. induction (list_ascii_of_string formula) as [|c l IH];
      [done|]. cbn in Hb |- *. apply andb_true_iff in Hb as [-> Hl]. cbn. auto. }
  rewrite Hs in Hc. destruct (devide_to_tokens reg formula) as [|t ts]; [done|].
  apply Forall_cons in Ht as [[Hne _] _].
  unfold chars_of in Hc. cbn in Hc. apply app_eq_nil in Hc as [Hc _].
  destruct (str t); [done|discriminate].
Qed.

Lemma blank_formula_parse (reg : gmap string (Token T)) (h : Syamfp T)
    (formula : string) :
  forallb isspace (list_ascii_of_string formula) = true ->
  make_rpn reg formula = Ok BAD_RPNs
  /\ parse reg h formula = (Ok (- EINVAL), h).
Proof.
  intros Hb. assert (E : make_rpn reg formula = Ok BAD_RPNs).
  { unfold make_rpn. by rewrite blank_formula_tokens. }
  split; [done|]. by apply parse_bad_rpn.
Qed.


(** ** The built-in symbols in the scan *)

Lemma is_operator_builtin (s : string) :
  is_operator (T:=T) RESERVED_TOKEN s = true
  <-> exists c, s = char_string c /\ is_punct c = true.
Proof.
  split.
  - unfold is_operator.
    destruct (RESERVED_TOKEN (T:=T) !! s) as [t|] eqn:E; [|done].
    apply elem_of_list_to_map_2 in E.
    unfold RESERVED_TOKEN_init, op_entry, punct_entry, const_entry,
      func1_entry, func2_entry in E.
    repeat (apply elem_of_cons in E as [E|E];
            [injection E as -> ->; cbn; intros H;
             first [discriminate H | by eexists]|]).
    by apply elem_of_nil in E.
  - intros (c & -> & Hc). unfold is_punct, punctuation in Hc. cbn in Hc.
    repeat (apply orb_true_iff in Hc as [Hc|Hc];
            [apply Ascii.eqb_eq in Hc as ->; run_pipeline|]).
    discriminate Hc.
Qed.

Lemma length_append (s t : string) :
  String.length (s +:+ t) = (String.length s + String.length t)%nat.
Proof.
  induction s as [|c s IH]; [done|].
  change (S (String.length (s +:+ t))
          = S (String.length s + String.length t)).
  by rewrite IH.
Qed.

Lemma not_operator_plain (s : string) :
  is_operator (T:=T) RESERVED_TOKEN s = false -> text_plain s ->
  forallb (fun c => negb (is_punct c)) (list_ascii_of_string s) = true.
Proof.
  intros Hop [Hlen|H]; [|done].
  destruct s as [|c [|d s]]; try discriminate Hlen.
  cbn [list_ascii_of_string forallb].
  destruct (is_punct c) eqn:Hc; [|done].
  assert (is_operator (T:=T) RESERVED_TOKEN (char_string c) = true)
    by (apply is_operator_builtin; by exists c).
  unfold char_string in *. congruence.
Qed.

Lemma operator_append_false (s : string) (c : ascii) :
  s ≠ EmptyString ->
  is_operator (T:=T) RESERVED_TOKEN (s +:+ char_string c) = false.
Proof.
  intros Hne. destruct (is_operator _ _) eqn:E; [|done].
  apply is_operator_builtin in E as (d & E & _).
  apply (f_equal String.length) in E. rewrite length_append in E.
  destruct s; [done|]. cbn in E. lia.
Qed.

Lemma devide_step_plain (st : list (Token T) * string) (c : ascii) :
  scan_plain st -> scan_plain (devide_step RESERVED_TOKEN st c).
Proof.
  destruct st as [tokens s]. intros [Ht Hs]. cbn [fst snd] in *.
  assert (Hflush : is_empty s = false ->
            Forall (fun t => text_plain (str t))
              (tokens ++ [Token_of RESERVED_TOKEN s])).
  { intros Es. apply Forall_app. split; [done|]. apply Forall_singleton.
    rewrite Token_of_str. destruct Hs as [->|Hs]; done. }
  unfold devide_step. destruct (isspace c).
  - destruct (is_empty s) eqn:Es; split; cbn [fst snd]; auto.
  - destruct (is_empty s) eqn:Es.
    { split; [done|]. right. by left. }
    assert (Hne : s ≠ EmptyString) by (by intros ->).
    rewrite (operator_append_false s c Hne).
    destruct (is_operator RESERVED_TOKEN s) eqn:Eo; cbn [orb].
    { split; cbn [fst snd]; [auto|]. right. by left. }
    destruct (is_operator RESERVED_TOKEN (char_string c)) eqn:Ec.
    { split; cbn [fst snd]; [auto|]. right. by left. }
    split; [done|]. cbn [snd]. right. right.
    rewrite list_ascii_app, forallb_app. apply andb_true_iff. split.
    + apply not_operator_plain; [done|]. by destruct Hs.
    + cbn [list_ascii_of_string char_string forallb].
      destruct (is_punct c) eqn:Hc; [|done].
      assert (is_operator (T:=T) RESERVED_TOKEN (char_string c) = true)
        by (apply is_operator_builtin; by exists c).
      congruence.
Qed.

Lemma devide_to_tokens_plain (formula : string) :
  Forall (fun t => text_plain (str t))
    (devide_to_tokens (T:=T) RESERVED_TOKEN formula).
Proof.
  unfold devide_to_tokens.
  assert (H : forall l st, scan_plain st ->
            scan_plain (fold_left (devide_step RESERVED_TOKEN) l st)).
  { induction l as [|c l IH]; intros st Hst; [done|].
    cbn [fold_left]. by apply IH, devide_step_plain. }
  specialize (H (list_ascii_of_string formula) ([], EmptyString)).
  destruct (fold_left _ _ _) as [tokens s].
  destruct H as [Ht Hs]; [split; [done|by left]|]. cbn [fst snd] in *.
  destruct (is_empty s) eqn:Es; [done|].
  apply Forall_app. split; [done|]. apply Forall_singleton.
  rewrite Token_of_str. destruct Hs as [->|Hs]; done.
Qed.

(** Every token is the one its text builds. *)
Lemma devide_to_tokens_built (reg : gmap string (Token T)) (formula : string) :
  Forall (fun t => t = Token_of reg (str t)) (devide_to_tokens reg formula).
Proof.
  unfold devide_to_tokens.
  assert (Hb : forall s, Token_of reg s = Token_of reg (str (Token_of reg s)))
    by (intros s; by rewrite Token_of_str).
  assert (H : forall l st, Forall (fun t => t = Token_of reg (str t)) st.1 ->
            Forall (fun t => t = Token_of reg (str t))
              (fold_left (devide_step reg) l st).1).
  { induction l as [|c l IH]; intros st Hst; [done|].
    cbn [fold_left]. apply IH. destruct st as [tokens s].
    unfold devide_step. cbn [fst] in Hst.
    repeat match goal with |- context [if ?b then _ else _] => destruct b end;
      cbn [fst]; try done; apply Forall_app; split; try done;
      by apply Forall_singleton. }
  specialize (H (list_ascii_of_string formula) ([], EmptyString) (Forall_nil_2 _)).
  destruct (fold_left _ _ _) as [tokens s]. cbn [fst] in H.
  destruct (is_empty s); [done|].
  apply Forall_app. split; [done|]. by apply Forall_singleton.
Qed.

(** ** Real literals *)





End Tok.

(** ** Identifiers and the literal pattern without a mantissa *)

Section Imag.
Context {T : Type} {M : MathConcept T}.

Lemma span_digits_run (ds rest : list ascii) :
  forallb is_digit ds = true ->
  match rest with [] => true | c :: _ => negb (is_digit c) end = true ->
  span_digits (ds ++ rest) = (ds, rest).
Proof.
  intros Hd Hr. induction ds as [|d ds IH]; cbn [app].
  - destruct rest as [|c rest]; [done|]. cbn.
    apply negb_true_iff in Hr. by rewrite Hr.
  - cbn in Hd. apply andb_true_iff in Hd as [Hd1 Hd2].
    cbn. rewrite Hd1, (IH Hd2). done.
Qed.

Lemma bare_exponent_not_reserved (d : ascii) (ds : list ascii) :
  is_digit d = true ->
  RESERVED_TOKEN (T:=T) !! bare_exponent (d :: ds) = None.
Proof.
  intros Hd. apply not_elem_of_list_to_map_1.
  unfold RESERVED_TOKEN_init, op_entry, punct_entry, const_entry,
    func1_entry, func2_entry, bare_exponent.
  cbn [fmap list_fmap fst string_of_list_ascii app].
  intros Hin.
  repeat (apply elem_of_cons in Hin as [Hin|Hin];
          [try discriminate Hin;
           injection Hin as -> _; discriminate Hd|]).
  by apply elem_of_nil in Hin.
Qed.

Lemma bare_exponent_patterns (d : ascii) (ds : list ascii) :
  forallb is_digit (d :: ds) = true ->
  is_real (bare_exponent (d :: ds)) = false
  /\ is_imaginary (bare_exponent (d :: ds)) = true.
Proof.
  intros Hds.
  assert (Hd : is_digit d = true)
    by (cbn in Hds; by apply andb_true_iff in Hds as [? _]).
  assert (Hs : span_digits ((d :: ds) ++ ["i"%char]) = (d :: ds, ["i"%char]))
    by (by apply span_digits_run).
  assert (Hsign : opt_sign ((d :: ds) ++ ["i"%char]) = (d :: ds) ++ ["i"%char]).
  { cbn. unfold is_sign.
    destruct (Ascii.eqb_spec d "+") as [->|_]; [discriminate Hd|].
    destruct (Ascii.eqb_spec d "-") as [->|_]; [discriminate Hd|]. done. }
  split.
  - unfold is_real, bare_exponent. rewrite list_ascii_of_string_of_list_ascii.
    cbn [opt_sign is_sign Ascii.eqb orb span_digits is_digit].
    change (is_digit "e") with false. cbn [nonempty andb]. done.
  - unfold is_imaginary, bare_exponent. rewrite list_ascii_of_string_of_list_ascii.
    change (opt_sign ("e"%char :: (d :: ds) ++ ["i"%char]))
      with ("e"%char :: (d :: ds) ++ ["i"%char]).
    change (span_digits ("e"%char :: (d :: ds) ++ ["i"%char]))
      with (@nil ascii, "e"%char :: (d :: ds) ++ ["i"%char]).
    cbn [opt_fraction]. change (Ascii.eqb "e" ".") with false.
    cbn [opt_exponent]. change (is_e "e") with true.
    cbv iota. rewrite Hsign, Hs. done.
Qed.

Lemma bare_exponent_from_chars (ds : list ascii) :
  from_chars (removelast (list_ascii_of_string (bare_exponent ds))) = None.
Proof.
  unfold bare_exponent. rewrite list_ascii_of_string_of_list_ascii.
  change ("e"%char :: ds ++ ["i"%char]) with (("e"%char :: ds) ++ ["i"%char]).
  rewrite removelast_last. reflexivity.
Qed.

Lemma bare_exponent_token (d : ascii) (ds : list ascii) :
  forallb is_digit (d :: ds) = true ->
  Token_of RESERVED_TOKEN (bare_exponent (d :: ds))
  = mkToken (bare_exponent (d :: ds)) Imaginary 0 (of_imag val_uninit) None.
Proof.
  intros Hds.
  assert (Hd : is_digit d = true)
    by (cbn in Hds; by apply andb_true_iff in Hds as [? _]).
  destruct (bare_exponent_patterns d ds Hds) as [Hreal Himag].
  unfold Token_of. rewrite (bare_exponent_not_reserved d ds Hd).
  rewrite Hreal, Himag, bare_exponent_from_chars.
  assert (Hlen : (String.length (bare_exponent (d :: ds)) =? 1)%nat = false).
  { unfold bare_exponent. cbn. done. }
  rewrite Hlen. done.
Qed.

(** A run of characters that are neither white space nor punctuation stays
    one candidate. *)
Lemma no_punct_not_operator (s : string) :
  forallb (fun c => negb (is_punct c)) (list_ascii_of_string s) = true ->
  is_operator (T:=T) RESERVED_TOKEN s = false.
Proof.
  intros H. destruct (is_operator _ _) eqn:E; [|done].
  apply is_operator_builtin in E as (c & -> & Hc).
  unfold char_string in H. cbn [list_ascii_of_string forallb] in H.
  by rewrite Hc in H.
Qed.

Lemma append_empty_r (s : string) : s +:+ EmptyString = s.
Proof.
  induction s as [|c s IH]; [done|].
  change (String c (s +:+ EmptyString) = String c s). by rewrite IH.
Qed.

Lemma append_cons_assoc (s : string) (c : ascii) (t : string) :
  (s +:+ char_string c) +:+ t = s +:+ String c t.
Proof.
  induction s as [|d s IH]; [done|].
  change (String d ((s +:+ char_string c) +:+ t) = String d (s +:+ String c t)).
  by rewrite IH.
Qed.

Lemma scan_identifier (l : list ascii) (s : string) :
  forallb (fun c => negb (is_punct c) && negb (isspace c)) l = true ->
  forallb (fun c => negb (is_punct c)) (list_ascii_of_string s) = true ->
  fold_left (devide_step (T:=T) RESERVED_TOKEN) l ([], s)
  = ([], s +:+ string_of_list_ascii l).
Proof.
  revert s. induction l as [|c l IH]; intros s Hl Hs.
  - cbn. by rewrite append_empty_r.
  - cbn [forallb] in Hl. apply andb_true_iff in Hl as [Hc Hl].
    apply andb_true_iff in Hc as [Hp Hsp].
    apply negb_true_iff in Hp, Hsp.
    cbn [fold_left string_of_list_ascii]. unfold devide_step at 2.
    rewrite Hsp.
    assert (Hcs : is_operator (T:=T) RESERVED_TOKEN (char_string c) = false).
    { apply no_punct_not_operator. unfold char_string.
      cbn [list_ascii_of_string forallb]. by rewrite Hp. }
    destruct (is_empty s) eqn:Es.
    + apply is_empty_spec in Es as ->.
      rewrite (IH (char_string c)); [done|done|]. unfold char_string.
      cbn [list_ascii_of_string forallb]. by rewrite Hp.
    + assert (Hne : s ≠ EmptyString) by (by intros ->).
      rewrite (operator_append_false s c Hne).
      rewrite (no_punct_not_operator s Hs), Hcs. cbn [orb].
      rewrite IH; [by rewrite append_cons_assoc|done|].
      rewrite list_ascii_app, forallb_app, Hs. unfold char_string.
      cbn [list_ascii_of_string forallb]. by rewrite Hp.
Qed.

Lemma identifier_one_token (formula : string) :
  formula ≠ EmptyString ->
  forallb (fun c => negb (is_punct c) && negb (isspace c))
    (list_ascii_of_string formula) = true ->
  devide_to_tokens (T:=T) RESERVED_TOKEN formula
  = [Token_of RESERVED_TOKEN formula].
Proof.
  intros Hne H. unfold devide_to_tokens.
  rewrite scan_identifier; [|done..].
  cbn [append]. rewrite string_of_list_ascii_of_string.
  by destruct formula.
Qed.


Lemma digit_plain (c : ascii) :
  is_digit c = true -> is_punct c = false /\ isspace c = false.
Proof.
  destruct c as [[] [] [] [] [] [] [] []]; try discriminate; by split.
Qed.

Lemma bare_exponent_scan (d : ascii) (ds : list ascii) :
  forallb is_digit (d :: ds) = true ->
  devide_to_tokens RESERVED_TOKEN (bare_exponent (d :: ds))
  = [mkToken (bare_exponent (d :: ds)) Imaginary 0 (of_imag val_uninit) None].
Proof.
  intros Hds. rewrite identifier_one_token.
  - by rewrite bare_exponent_token.
  - done.
  - unfold bare_exponent. rewrite list_ascii_of_string_of_list_ascii.
    cbn [forallb]. apply andb_true_iff. split; [reflexivity|].
    rewrite forallb_app. apply andb_true_iff. split; [|reflexivity].
    apply forallb_forall. intros c Hc.
    assert (Hd : is_digit c = true)
      by (by apply (proj1 (forallb_forall _ _) Hds)).
    destruct (digit_plain c Hd) as [-> ->]. done.
Qed.

End Imag.

(** ** The converter returns under the built-in registry *)

Section NoFault.
Context {T : Type} {M : MathConcept T}.

Lemma eq_LPAREN_type (t : Token T) : eq_LPAREN t = true -> type t = LParen.
Proof.
  unfold eq_LPAREN. rewrite !andb_true_iff.
  intros [[[[_ H] _] _] _]. by apply bool_decide_eq_true in H.
Qed.

(** The guard makes both loops find their parenthesis. *)
Lemma pop_until_LParen_found (stack rpn : list (Token T)) :
  has_LParen stack = true ->
  exists rpn' stack', pop_until_LParen rpn stack = Ok (rpn', stack').
Proof.
  revert rpn. induction stack as [|t stack IH]; intros rpn H; [done|].
  cbn [pop_until_LParen]. case_bool_decide as Hty; [by eauto|].
  apply IH. cbn [has_LParen existsb] in H.
  apply orb_true_iff in H as [H|H]; [|done].
  by apply eq_LPAREN_type in H.
Qed.

Lemma pop_to_LPAREN_found (stack rpn : list (Token T)) :
  has_LParen stack = true ->
  exists rpn' stack', pop_to_LPAREN rpn stack = Ok (rpn', stack').
Proof.
  revert rpn. induction stack as [|t stack IH]; intros rpn H; [done|].
  cbn [pop_to_LPAREN]. destruct (eq_LPAREN t) eqn:Et; [by eauto|].
  apply IH. cbn [has_LParen existsb] in H. by rewrite Et in H.
Qed.

Lemma case_of_RParen_returns (rpn stack : list (Token T)) :
  exists rpn' stack',
    case_of_RParen rpn stack = Ok (has_LParen stack, (rpn', stack')).
Proof.
  unfold case_of_RParen. destruct (has_LParen stack) eqn:H; cbn [negb].
  - destruct (pop_until_LParen_found stack rpn H) as (r & s & ->). cbn.
    destruct s as [|t s]; [by eauto|]. destruct (func t); by eauto.
  - by eauto.
Qed.

Lemma case_of_Comma_returns (rpn stack : list (Token T)) :
  exists rpn' stack',
    case_of_Comma rpn stack = Ok (has_LParen stack, (rpn', stack')).
Proof.
  unfold case_of_Comma. destruct (has_LParen stack) eqn:H; cbn [negb].
  - destruct (pop_to_LPAREN_found stack rpn H) as (r & s & ->). cbn. by eauto.
  - by eauto.
Qed.

Lemma pop_operators_known (token : Token T) (stack rpn : list (Token T)) :
  is_Some (PRECED !! str token) -> is_Some (LEFT_ASSOC_LIST !! str token) ->
  Forall known_operator stack ->
  exists rpn' stack', pop_operators token rpn stack = Ok (rpn', stack').
Proof.
  intros [pt Hpt] [la Hla]. revert rpn.
  induction stack as [|t stack IH]; intros rpn Hs; [by eauto|].
  apply Forall_cons in Hs as [Ht Hs].
  cbn [pop_operators]. case_bool_decide as Hty; [by eauto|].
  destruct (Ht Hty) as [[pp Hpp] _].
  unfold ret_preced, is_left_assoc, map_at. rewrite Hpt, Hpp, Hla. cbn.
  destruct (if la then _ else _); [by eauto|]. by apply IH.
Qed.

Lemma Token_of_known (s : string) :
  known_operator (Token_of (T:=T) RESERVED_TOKEN s).
Proof.
  unfold known_operator, Token_of.
  destruct (RESERVED_TOKEN (T:=T) !! s) as [t|] eqn:E.
  - apply elem_of_list_to_map_2 in E.
    unfold RESERVED_TOKEN_init, op_entry, punct_entry, const_entry,
      func1_entry, func2_entry in E.
    repeat (apply elem_of_cons in E as [E|E];
            [injection E as -> ->; cbn; intros H;
             first [discriminate H | by split]|]).
    by apply elem_of_nil in E.
  - destruct (is_real s); [done|]. by destruct (is_imaginary s).
Qed.

Lemma pop_until_LParen_sub (stack rpn rpn' stack' : list (Token T)) (P : Token T -> Prop) :
  Forall P stack -> pop_until_LParen rpn stack = Ok (rpn', stack') ->
  Forall P stack'.
Proof.
  revert rpn. induction stack as [|t stack IH]; intros rpn Hs; [done|].
  apply Forall_cons in Hs as [Ht Hs]. cbn [pop_until_LParen].
  case_bool_decide; [by intros [= _ <-]|]. by apply IH.
Qed.

Lemma pop_to_LPAREN_sub (stack rpn rpn' stack' : list (Token T)) (P : Token T -> Prop) :
  Forall P stack -> pop_to_LPAREN rpn stack = Ok (rpn', stack') ->
  Forall P stack'.
Proof.
  revert rpn. induction stack as [|t stack IH]; intros rpn Hs; [done|].
  cbn [pop_to_LPAREN]. destruct (eq_LPAREN t); [by intros [= _ <-]|].
  apply Forall_cons in Hs as [Ht Hs]. by apply IH.
Qed.

Lemma pop_operators_sub (token : Token T) (stack rpn rpn' stack' : list (Token T))
    (P : Token T -> Prop) :
  Forall P stack -> pop_operators token rpn stack = Ok (rpn', stack') ->
  Forall P stack'.
Proof.
  revert rpn. induction stack as [|t stack IH]; intros rpn Hs.
  - by intros [= _ <-].
  - cbn [pop_operators]. case_bool_decide; [by intros [= _ <-]|].
    destruct (ret_preced (str token)) as [pt| |]; [|done..].
    destruct (ret_preced (str t)) as [pp| |]; [|done..].
    destruct (is_left_assoc (str token)) as [la| |]; [|done..].
    cbn. destruct (if la then _ else _); [by intros [= _ <-]|].
    apply Forall_cons in Hs as [Ht Hs]. by apply IH.
Qed.

Lemma make_rpn_loop_returns (tokens : list (Token T)) :
  Forall known_operator tokens ->
  forall (rpn stack : list (Token T)) (prev : bool),
    Forall known_operator stack ->
    exists out, make_rpn_loop RESERVED_TOKEN tokens rpn stack prev = Ok out.
Proof.
  induction tokens as [|t tokens IH]; intros Hts rpn stack prev Hs.
  - cbn. by eauto.
  - apply Forall_cons in Hts as [Ht Hts]. specialize (IH Hts).
    cbn [make_rpn_loop]. destruct (type t) eqn:Hty.
    1-4: by apply IH.
    2-5: apply IH; by apply Forall_cons.
    + unfold case_of_Operator.
      destruct (prev && String.eqb (str t) "+"); [cbn; by apply IH|].
      assert (Hstar := Token_of_known "*").
      assert (Hstar' : type (Token_of (T:=T) RESERVED_TOKEN "*") = Operator)
        by run_pipeline.
      set (star := Token_of RESERVED_TOKEN "*") in *.
      set (m1 := Token_of RESERVED_TOKEN "-1"). clearbody star m1.
      destruct (prev && String.eqb (str t) "-").
      * destruct (Hstar Hstar') as [Hp Hl].
        destruct (pop_operators_known star stack (rpn ++ [m1]) Hp Hl Hs)
          as (r & s & E).
        rewrite E. cbn. apply IH. apply Forall_cons. split; [done|].
        by apply (pop_operators_sub _ _ _ _ _ _ Hs E).
      * destruct (Ht Hty) as [Hp Hl].
        destruct (pop_operators_known t stack rpn Hp Hl Hs) as (r & s & E).
        rewrite E. cbn. apply IH. apply Forall_cons. split; [done|].
        by apply (pop_operators_sub _ _ _ _ _ _ Hs E).
    + destruct (case_of_RParen_returns rpn stack) as (r & s & E).
      rewrite E. cbn. destruct (has_LParen stack) eqn:Hl; [|by eauto].
      apply IH. unfold case_of_RParen in E. rewrite Hl in E. cbn [negb] in E.
      destruct (pop_until_LParen rpn stack) as [[r1 s1]| |] eqn:E1; [|done..].
      apply (pop_until_LParen_sub _ _ _ _ _ Hs) in E1. cbn in E.
      destruct s1 as [|u s1]; [by injection E as <- <-|].
      destruct (func u); injection E as <- <-; [|done].
      by apply Forall_cons in E1 as [_ ?].
    + destruct (case_of_Comma_returns rpn stack) as (r & s & E).
      rewrite E. cbn. destruct (has_LParen stack) eqn:Hl; [|by eauto].
      apply IH. unfold case_of_Comma in E. rewrite Hl in E. cbn [negb] in E.
      destruct (pop_to_LPAREN rpn stack) as [[r1 s1]| |] eqn:E1; [|done..].
      apply (pop_to_LPAREN_sub _ _ _ _ _ Hs) in E1. cbn in E.
      by injection E as <- <-.
Qed.

Lemma make_rpn_returns (formula : string) :
  exists rpn, make_rpn (T:=T) RESERVED_TOKEN formula = Ok rpn.
Proof.
  unfold make_rpn. apply make_rpn_loop_returns; [|done].
  eapply Forall_impl; [apply (devide_to_tokens_built RESERVED_TOKEN)|].
  intros t ->. apply Token_of_known.
Qed.

Lemma parse_returns (h : Syamfp T) (formula : string) :
  exists code h', parse RESERVED_TOKEN h formula = (Ok code, h')
                  /\ (code = 0 \/ code = - EINVAL).
Proof.
  unfold parse. destruct (make_rpn_returns formula) as [rpn ->].
  destruct (is_nil rpn); [by eauto|].
  destruct (compile_RPN rpn (vars h)) as [[c|e|] vl] eqn:E; [by eauto..|].
  exfalso. clear -E. unfold compile_RPN in E.
  assert (H : forall (l : list (Token T)) cnt ops vs,
            (compile_loop l cnt ops vs).1 ≠ Undefined).
  { induction l as [|t l IH]; intros cnt ops vs; cbn [compile_loop].
    - by case_bool_decide.
    - destruct (type t); try apply IH;
        by destruct (cnt - arg_num t <? 0). }
  apply (H rpn 0 [] ∅). by rewrite E.
Qed.

End NoFault.

(** ** Parentheses nest in every accepted formula *)

Section Nesting.
Context {T : Type} {M : MathConcept T}.

Lemma open_parens_cons (t : Token T) (stack : list (Token T)) :
  open_parens (t :: stack)
  = ((if decide (type t = LParen) then 1 else 0) + open_parens stack)%nat.
Proof.
  unfold open_parens. cbn [filter list_filter].
  by destruct (decide (type t = LParen)).
Qed.

Lemma stacked_LParen (t : Token T) :
  stacked_ok t -> type t = LParen -> eq_LPAREN t = true.
Proof.
  intros [H|[_ H]] Hty; [|done].
  apply andb_true_iff in H as [H _]. unfold is_applied in H.
  by rewrite Hty in H.
Qed.

Lemma has_LParen_open (stack : list (Token T)) :
  Forall stacked_ok stack ->
  has_LParen stack = true <-> (0 < open_parens stack)%nat.
Proof.
  induction stack as [|t stack IH]; intros Hs.
  - cbn. split; [done|]. unfold open_parens. cbn. lia.
  - apply Forall_cons in Hs as [Ht Hs]. specialize (IH Hs).
    cbn [has_LParen existsb]. rewrite open_parens_cons, orb_true_iff.
    destruct (decide (type t = LParen)) as [Hty|Hty].
    + split; [lia|]. intros _. left. by apply stacked_LParen.
    + split.
      * intros [H|H]; [by apply eq_LPAREN_type in H|]. apply IH in H. lia.
      * intros H. right. apply IH. lia.
Qed.

Lemma pop_until_LParen_open (stack rpn rpn' stack' : list (Token T)) :
  pop_until_LParen rpn stack = Ok (rpn', stack') ->
  open_parens stack = S (open_parens stack').
Proof.
  revert rpn. induction stack as [|t stack IH]; intros rpn; [done|].
  cbn [pop_until_LParen]. rewrite open_parens_cons.
  case_bool_decide as Hty.
  - intros [= _ <-]. by rewrite decide_True.
  - intros E. rewrite decide_False by done. by apply IH in E.
Qed.

Lemma case_of_RParen_open (rpn stack rpn' stack' : list (Token T)) :
  Forall stacked_ok stack ->
  case_of_RParen rpn stack = Ok (true, (rpn', stack')) ->
  open_parens stack = S (open_parens stack').
Proof.
  intros Hs. unfold case_of_RParen.
  destruct (has_LParen stack); cbn [negb]; [|done].
  destruct (pop_until_LParen rpn stack) as [[r1 s1]| |] eqn:E; [|done..].
  pose proof (pop_until_LParen_sub _ _ _ _ _ Hs E) as Hs1.
  apply pop_until_LParen_open in E. cbn.
  destruct s1 as [|u s1]; [by intros [= _ <-]|].
  destruct (func u) as [f|] eqn:Hf; intros [= _ <-]; [|done].
  rewrite E, open_parens_cons. apply Forall_cons in Hs1 as [Hu _].
  rewrite decide_False; [done|]. intros Hty.
  apply (stacked_LParen u Hu) in Hty. unfold eq_LPAREN in Hty.
  rewrite Hf in Hty. cbn in Hty. by rewrite andb_false_r in Hty.
Qed.

Lemma pop_to_LPAREN_open (stack rpn rpn' stack' : list (Token T)) :
  Forall stacked_ok stack ->
  pop_to_LPAREN rpn stack = Ok (rpn', stack') ->
  open_parens stack' = open_parens stack.
Proof.
  revert rpn. induction stack as [|t stack IH]; intros rpn Hs; [done|].
  cbn [pop_to_LPAREN]. destruct (eq_LPAREN t) eqn:Et; [by intros [= _ <-]|].
  apply Forall_cons in Hs as [Ht Hs]. intros E. apply IH in E; [|done].
  rewrite open_parens_cons, decide_False; [done|].
  intros Hty. apply (stacked_LParen t Ht) in Hty. congruence.
Qed.

Lemma pop_operators_open (token : Token T) (stack rpn rpn' stack' : list (Token T)) :
  pop_operators token rpn stack = Ok (rpn', stack') ->
  open_parens stack' = open_parens stack.
Proof.
  revert rpn. induction stack as [|t stack IH]; intros rpn.
  - by intros [= _ <-].
  - cbn [pop_operators]. case_bool_decide as Hty; [by intros [= _ <-]|].
    destruct (ret_preced (str token)) as [pt| |]; [|done..].
    destruct (ret_preced (str t)) as [pp| |]; [|done..].
    destruct (is_left_assoc (str token)) as [la| |]; [|done..].
    cbn [mbind result_bind]. unfold mbind, result_bind.
    destruct (if la then _ else _); [by intros [= _ <-]|].
    intros E. apply IH in E. rewrite open_parens_cons, decide_False; [done|].
    congruence.
Qed.

Lemma case_of_Operator_open (rpn stack rpn' stack' : list (Token T))
    (token : Token T) (prev : bool) :
  type token = Operator ->
  case_of_Operator RESERVED_TOKEN rpn stack token prev = Ok (rpn', stack') ->
  open_parens stack' = open_parens stack.
Proof.
  intros Hty. unfold case_of_Operator.
  assert (Hstar : type (Token_of (T:=T) RESERVED_TOKEN "*") = Operator)
    by run_pipeline.
  set (star := Token_of RESERVED_TOKEN "*") in *.
  set (m1 := Token_of RESERVED_TOKEN "-1"). clearbody star m1.
  destruct (prev && String.eqb (str token) "+"); [by intros [= _ <-]|].
  destruct (prev && String.eqb (str token) "-").
  - destruct (pop_operators _ _ _) as [[r1 s1]| |] eqn:E; [|done..].
    apply pop_operators_open in E. cbn. intros [= _ <-].
    rewrite open_parens_cons, decide_False; [done|congruence].
  - destruct (pop_operators _ _ _) as [[r1 s1]| |] eqn:E; [|done..].
    apply pop_operators_open in E. cbn. intros [= _ <-].
    rewrite open_parens_cons, decide_False; [done|congruence].
Qed.

Lemma push_remaining_nonempty (stack rpn : list (Token T)) :
  push_remaining rpn stack ≠ [] ->
  has_LParen stack = false /\ push_remaining rpn stack = rpn ++ stack.
Proof.
  revert rpn. induction stack as [|t stack IH]; intros rpn H.
  - cbn. by rewrite app_nil_r.
  - cbn [push_remaining] in *.
    destruct (has_LParen (t :: stack)) eqn:E; [done|].
    split; [done|]. destruct (IH _ H) as [_ ->]. by rewrite <- app_assoc.
Qed.

Lemma make_rpn_loop_nesting (tokens : list (Token T)) :
  Forall token_ok tokens ->
  forall (rpn stack : list (Token T)) (prev : bool) (out : list (Token T)),
    Forall emitted_ok rpn -> Forall stacked_ok stack ->
    make_rpn_loop RESERVED_TOKEN tokens rpn stack prev = Ok out ->
    out ≠ [] ->
    nesting (open_parens stack) (map type tokens) = true.
Proof.
  induction tokens as [|t tokens IH]; intros Hts rpn stack prev out Hr Hs.
  - cbn. intros [= <-] Hne.
    destruct (push_remaining_nonempty _ _ Hne) as [Hl _].
    destruct (open_parens stack) eqn:Eo; [done|].
    assert (has_LParen stack = true) by (apply has_LParen_open; [done|lia]).
    congruence.
  - apply Forall_cons in Hts as [Ht Hts]. specialize (IH Hts).
    cbn [make_rpn_loop map nesting].
    destruct (type t) eqn:Hty.
    1-4: apply IH; [|done]; apply emitted_snoc; [done|];
      unfold emitted_ok, applicable, is_operand, is_applied;
      by rewrite Hty.
    2-4: intros E Hne;
      assert (Hst : stacked_ok t)
        by (apply token_stacked; [done|]; unfold is_applied; by rewrite Hty);
      apply (IH _ _ _ _ Hr (Forall_cons_2 _ _ _ Hst Hs)) in E; [|done];
      by rewrite open_parens_cons, decide_False in E by congruence.
    + destruct (case_of_Operator _ _ _ _ _) as [[r1 s1]| |] eqn:E; [|done..].
      pose proof (case_of_Operator_open _ _ _ _ _ _ Hty E) as Ho.
      apply case_of_Operator_ok in E as [Hr1 Hs1]; [|done..].
      cbn. intros E' Hne. rewrite <- Ho. by apply (IH _ _ _ _ Hr1 Hs1 E').
    + intros E Hne.
      assert (Hst : stacked_ok t).
      { right. split; [done|]. unfold token_ok in Ht. by rewrite Hty in Ht. }
      apply (IH _ _ _ _ Hr (Forall_cons_2 _ _ _ Hst Hs)) in E; [|done].
      by rewrite open_parens_cons, decide_True in E.
    + destruct (case_of_RParen rpn stack) as [[b [r1 s1]]| |] eqn:E; [|done..].
      cbn. destruct b; [|by intros [= <-]].
      pose proof (case_of_RParen_open _ _ _ _ Hs E) as Ho.
      apply case_of_RParen_ok in E as [Hr1 Hs1]; [|done..].
      intros E' Hne. rewrite Ho. by apply (IH _ _ _ _ Hr1 Hs1 E').
    + destruct (case_of_Comma rpn stack) as [[b [r1 s1]]| |] eqn:E; [|done..].
      cbn. destruct b; [|by intros [= <-]].
      intros E' Hne.
      assert (Hl : has_LParen stack = true).
      { destruct (case_of_Comma_returns rpn stack) as (? & ? & E2).
        rewrite E in E2. by injection E2 as -> _ _. }
      assert (Ho : open_parens s1 = open_parens stack).
      { unfold case_of_Comma in E. rewrite Hl in E. cbn [negb] in E.
        destruct (pop_to_LPAREN rpn stack) as [[r2 s2]| |] eqn:E2; [|done..].
        cbn in E. injection E as <- <-. by apply (pop_to_LPAREN_open _ _ _ _ Hs E2). }
      apply case_of_Comma_ok in E as [Hr1 Hs1]; [|done..].
      apply (IH _ _ _ _ Hr1 Hs1 E') in Hne. rewrite Ho in Hne.
      apply (has_LParen_open _ Hs) in Hl.
      destruct (open_parens stack); [lia|done].
Qed.

Lemma make_rpn_nesting (formula : string) (rpn : list (Token T)) :
  make_rpn RESERVED_TOKEN formula = Ok rpn -> rpn ≠ [] ->
  nesting 0 (map type (devide_to_tokens (T:=T) RESERVED_TOKEN formula)) = true.
Proof.
  intros E Hne. unfold make_rpn in E.
  by apply (make_rpn_loop_nesting _ (devide_to_tokens_ok formula) [] [] true rpn).
Qed.

End Nesting.

(** ** The variables of a formula *)

Section Vars.
Context {T : Type} {M : MathConcept T}.

Lemma variables_of_snoc (rpn : list (Token T)) (t : Token T) :
  variables_of (rpn ++ [t])
  = variables_of rpn ∪ (if decide (type t = Variable_) then {[ str t ]} else ∅).
Proof.
  unfold variables_of. rewrite filter_app, map_app, list_to_set_app_L.
  f_equal. cbn [filter list_filter].
  destruct (decide (type t = Variable_)); cbn; [|done].
  by rewrite (right_id_L ∅ (∪)).
Qed.

Lemma variables_of_cons (t : Token T) (rpn : list (Token T)) :
  variables_of (t :: rpn)
  = (if decide (type t = Variable_) then {[ str t ]} else ∅) ∪ variables_of rpn.
Proof.
  unfold variables_of. cbn [filter list_filter].
  destruct (decide (type t = Variable_)); cbn; [done|].
  by rewrite (left_id_L ∅ (∪)).
Qed.

Lemma stacked_not_variable (t : Token T) : stacked_ok t -> type t ≠ Variable_.
Proof.
  intros [H|[H _]] Hty; [|congruence].
  apply andb_true_iff in H as [H _]. unfold is_applied in H.
  by rewrite Hty in H.
Qed.

Lemma variables_of_emit (rpn : list (Token T)) (t : Token T) :
  stacked_ok t -> variables_of (rpn ++ [t]) = variables_of rpn.
Proof.
  intros Ht. rewrite variables_of_snoc.
  rewrite decide_False by (by apply stacked_not_variable).
  by rewrite (right_id_L ∅ (∪)).
Qed.

Lemma pop_until_LParen_vars (stack rpn rpn' stack' : list (Token T)) :
  Forall stacked_ok stack ->
  pop_until_LParen rpn stack = Ok (rpn', stack') ->
  variables_of rpn' = variables_of rpn.
Proof.
  revert rpn. induction stack as [|t stack IH]; intros rpn Hs; [done|].
  apply Forall_cons in Hs as [Ht Hs]. cbn [pop_until_LParen].
  case_bool_decide; [by intros [= <- _]|].
  intros E. apply IH in E; [|done]. by rewrite E, variables_of_emit.
Qed.

Lemma pop_to_LPAREN_vars (stack rpn rpn' stack' : list (Token T)) :
  Forall stacked_ok stack ->
  pop_to_LPAREN rpn stack = Ok (rpn', stack') ->
  variables_of rpn' = variables_of rpn.
Proof.
  revert rpn. induction stack as [|t stack IH]; intros rpn Hs; [done|].
  apply Forall_cons in Hs as [Ht Hs]. cbn [pop_to_LPAREN].
  destruct (eq_LPAREN t); [by intros [= <- _]|].
  intros E. apply IH in E; [|done]. by rewrite E, variables_of_emit.
Qed.

Lemma pop_operators_vars (token : Token T) (stack rpn rpn' stack' : list (Token T)) :
  Forall stacked_ok stack ->
  pop_operators token rpn stack = Ok (rpn', stack') ->
  variables_of rpn' = variables_of rpn.
Proof.
  revert rpn. induction stack as [|t stack IH]; intros rpn Hs.
  - by intros [= <- _].
  - apply Forall_cons in Hs as [Ht Hs].
    cbn [pop_operators]. case_bool_decide; [by intros [= <- _]|].
    destruct (ret_preced (str token)) as [pt| |]; [|done..].
    destruct (ret_preced (str t)) as [pp| |]; [|done..].
    destruct (is_left_assoc (str token)) as [la| |]; [|done..].
    unfold mbind, result_bind.
    destruct (if la then _ else _); [by intros [= <- _]|].
    intros E. apply IH in E; [|done]. by rewrite E, variables_of_emit.
Qed.

Lemma case_of_RParen_vars (rpn stack rpn' stack' : list (Token T)) (b : bool) :
  Forall stacked_ok stack ->
  case_of_RParen rpn stack = Ok (b, (rpn', stack')) ->
  variables_of rpn' = variables_of rpn.
Proof.
  intros Hs. unfold case_of_RParen.
  destruct (has_LParen stack); cbn [negb]; [|by intros [= _ <- _]].
  destruct (pop_until_LParen rpn stack) as [[r1 s1]| |] eqn:E; [|done..].
  pose proof (pop_until_LParen_sub _ _ _ _ _ Hs E) as Hs1.
  apply pop_until_LParen_vars in E; [|done].
  unfold mbind, result_bind.
  destruct s1 as [|u s1]; [by intros [= _ <- _]|].
  apply Forall_cons in Hs1 as [Hu _].
  destruct (func u); intros [= _ <- _]; [|done].
  by rewrite variables_of_emit.
Qed.

Lemma case_of_Comma_vars (rpn stack rpn' stack' : list (Token T)) (b : bool) :
  Forall stacked_ok stack ->
  case_of_Comma rpn stack = Ok (b, (rpn', stack')) ->
  variables_of rpn' = variables_of rpn.
Proof.
  intros Hs. unfold case_of_Comma.
  destruct (has_LParen stack); cbn [negb]; [|by intros [= _ <- _]].
  destruct (pop_to_LPAREN rpn stack) as [[r1 s1]| |] eqn:E; [|done..].
  apply pop_to_LPAREN_vars in E; [|done].
  unfold mbind, result_bind. by intros [= _ <- _].
Qed.

Lemma minus_one_not_variable :
  type (Token_of (T:=T) RESERVED_TOKEN "-1") ≠ Variable_.
Proof.
  assert (E : type (Token_of (T:=T) RESERVED_TOKEN "-1") = Real) by run_pipeline.
  by rewrite E.
Qed.

Lemma case_of_Operator_vars (rpn stack rpn' stack' : list (Token T))
    (token : Token T) (prev : bool) :
  Forall stacked_ok stack ->
  case_of_Operator RESERVED_TOKEN rpn stack token prev = Ok (rpn', stack') ->
  variables_of rpn' = variables_of rpn.
Proof.
  intros Hs. unfold case_of_Operator.
  assert (Hm := minus_one_not_variable).
  set (star := Token_of RESERVED_TOKEN "*").
  set (m1 := Token_of RESERVED_TOKEN "-1") in *. clearbody star m1.
  destruct (prev && String.eqb (str token) "+"); [by intros [= <- _]|].
  destruct (prev && String.eqb (str token) "-").
  - destruct (pop_operators _ _ _) as [[r1 s1]| |] eqn:E; [|done..].
    apply pop_operators_vars in E; [|done]. unfold mbind, result_bind.
    intros [= <- _]. rewrite E, variables_of_snoc, decide_False by done.
    by rewrite (right_id_L ∅ (∪)).
  - destruct (pop_operators _ _ _) as [[r1 s1]| |] eqn:E; [|done..].
    apply pop_operators_vars in E; [|done]. unfold mbind, result_bind.
    by intros [= <- _].
Qed.

Lemma variables_of_app_stack (rpn stack : list (Token T)) :
  Forall stacked_ok stack -> variables_of (rpn ++ stack) = variables_of rpn.
Proof.
  revert rpn. induction stack as [|t stack IH]; intros rpn Hs.
  - by rewrite app_nil_r.
  - apply Forall_cons in Hs as [Ht Hs].
    change (rpn ++ t :: stack) with (rpn ++ [t] ++ stack).
    rewrite app_assoc, IH by done. by apply variables_of_emit.
Qed.

Lemma make_rpn_loop_vars (tokens : list (Token T)) :
  Forall token_ok tokens ->
  forall (rpn stack : list (Token T)) (prev : bool) (out : list (Token T)),
    Forall emitted_ok rpn -> Forall stacked_ok stack ->
    make_rpn_loop RESERVED_TOKEN tokens rpn stack prev = Ok out ->
    out ≠ [] ->
    variables_of out = variables_of rpn ∪ variables_of tokens.
Proof.
  induction tokens as [|t tokens IH]; intros Hts rpn stack prev out Hr Hs.
  - cbn [make_rpn_loop]. intros [= <-] Hne.
    destruct (push_remaining_nonempty _ _ Hne) as [_ ->].
    rewrite variables_of_app_stack by done.
    unfold variables_of at 3. cbn. by rewrite (right_id_L ∅ (∪)).
  - apply Forall_cons in Hts as [Ht Hts]. specialize (IH Hts).
    cbn [make_rpn_loop]. rewrite variables_of_cons.
    destruct (type t) eqn:Hty.
    1-4: intros E Hne; rewrite (IH _ _ _ _ (emitted_snoc _ _ Hr
           ltac:(unfold emitted_ok, applicable, is_operand, is_applied;
                 by rewrite Hty)) Hs E Hne), variables_of_snoc, Hty;
         by rewrite (assoc_L (∪)).
    2-4: intros E Hne;
      assert (Hst : stacked_ok t)
        by (apply token_stacked; [done|]; unfold is_applied; by rewrite Hty);
      rewrite (IH _ _ _ _ Hr (Forall_cons_2 _ _ _ Hst Hs) E Hne);
      by rewrite decide_False, (left_id_L ∅ (∪)) by done.
    + destruct (case_of_Operator _ _ _ _ _) as [[r1 s1]| |] eqn:E; [|done..].
      pose proof (case_of_Operator_vars _ _ _ _ _ _ Hs E) as Hv.
      apply case_of_Operator_ok in E as [Hr1 Hs1]; [|done..].
      unfold mbind, result_bind. intros E' Hne.
      rewrite (IH _ _ _ _ Hr1 Hs1 E' Hne), Hv.
      by rewrite decide_False, (left_id_L ∅ (∪)) by done.
    + intros E Hne.
      assert (Hst : stacked_ok t).
      { right. split; [done|]. unfold token_ok in Ht. by rewrite Hty in Ht. }
      rewrite (IH _ _ _ _ Hr (Forall_cons_2 _ _ _ Hst Hs) E Hne).
      by rewrite decide_False, (left_id_L ∅ (∪)) by done.
    + destruct (case_of_RParen rpn stack) as [[b [r1 s1]]| |] eqn:E; [|done..].
      pose proof (case_of_RParen_vars _ _ _ _ _ Hs E) as Hv.
      apply case_of_RParen_ok in E as [Hr1 Hs1]; [|done..].
      unfold mbind, result_bind. destruct b; [|by intros [= <-]].
      intros E' Hne. rewrite (IH _ _ _ _ Hr1 Hs1 E' Hne), Hv.
      by rewrite decide_False, (left_id_L ∅ (∪)) by done.
    + destruct (case_of_Comma rpn stack) as [[b [r1 s1]]| |] eqn:E; [|done..].
      pose proof (case_of_Comma_vars _ _ _ _ _ Hs E) as Hv.
      apply case_of_Comma_ok in E as [Hr1 Hs1]; [|done..].
      unfold mbind, result_bind. destruct b; [|by intros [= <-]].
      intros E' Hne. rewrite (IH _ _ _ _ Hr1 Hs1 E' Hne), Hv.
      by rewrite decide_False, (left_id_L ∅ (∪)) by done.
Qed.

Lemma make_rpn_vars (formula : string) (rpn : list (Token T)) :
  make_rpn RESERVED_TOKEN formula = Ok rpn -> rpn ≠ [] ->
  variables_of rpn = variables_of (devide_to_tokens RESERVED_TOKEN formula).
Proof.
  intros E Hne. unfold make_rpn in E.
  rewrite (make_rpn_loop_vars _ (devide_to_tokens_ok formula) [] [] true rpn);
    try done.
  unfold variables_of at 1. cbn. by rewrite (left_id_L ∅ (∪)).
Qed.

(** The handle after a successful parse. *)
Lemma parse_success_state (h h' : Syamfp T) (f : string) :
  parse RESERVED_TOKEN h f = (Ok 0, h') ->
  exists rpn,
    make_rpn RESERVED_TOKEN f = Ok rpn
    /\ rpn ≠ []
    /\ formula h' = f
    /\ table h' = table h
    /\ crpn h' = map operation_of rpn
    /\ vars h' = variables_of (devide_to_tokens RESERVED_TOKEN f).
Proof.
  unfold parse.
  destruct (make_rpn RESERVED_TOKEN f) as [rpn| |] eqn:Er; [|done..].
  destruct (is_nil rpn) eqn:En; [done|].
  assert (Hne : rpn ≠ []) by (by intros ->).
  pose proof (make_rpn_well_formed f rpn Er) as Hwf.
  assert (Hp : postfix_sequence rpn = true).
  { unfold well_formed in Hwf. by apply andb_true_iff in Hwf as [? _]. }
  destruct (compile_loop_walk rpn Hp 0 [] ∅) as [H1 H2].
  unfold compile_RPN.
  destruct (compile_loop rpn 0 [] ∅) as [[c| |] vl] eqn:Ec; [|done..].
  intros [= <-]. exists rpn. cbn [fst snd app] in H1, H2.
  destruct (depth_walk rpn 0); try discriminate H1.
  injection H1 as ->. rewrite (H2 eq_refl), (right_id_L ∅ (∪)).
  cbn. repeat (split; [done|]). by apply make_rpn_vars.
Qed.

End Vars.

(** ** White space and a leading plus *)

Section Compose.
Context {T : Type} {M : MathConcept T}.

Lemma devide_to_tokens_flush (reg : gmap string (Token T)) (f : string) :
  devide_to_tokens reg f
  = flush (fold_left (devide_step reg) (list_ascii_of_string f) ([], EmptyString)) reg.
Proof. unfold devide_to_tokens, flush. by destruct (fold_left _ _ _). Qed.

Lemma devide_step_prefix (reg : gmap string (Token T)) (pre ts : list (Token T))
    (s : string) (c : ascii) :
  devide_step reg (pre ++ ts, s) c
  = (pre ++ (devide_step reg (ts, s) c).1, (devide_step reg (ts, s) c).2).
Proof.
  unfold devide_step.
  repeat match goal with |- context [if ?b then _ else _] => destruct b end;
    cbn [fst snd]; by rewrite <- ?app_assoc.
Qed.

Lemma fold_devide_prefix (reg : gmap string (Token T)) (l : list ascii)
    (pre ts : list (Token T)) (s : string) :
  fold_left (devide_step reg) l (pre ++ ts, s)
  = (pre ++ (fold_left (devide_step reg) l (ts, s)).1,
     (fold_left (devide_step reg) l (ts, s)).2).
Proof.
  revert ts s. induction l as [|c l IH]; intros ts s; [done|].
  cbn [fold_left]. rewrite devide_step_prefix.
  destruct (devide_step reg (ts, s) c) as [ts' s']. cbn [fst snd]. apply IH.
Qed.

Lemma flush_prefix (reg : gmap string (Token T)) (pre ts : list (Token T))
    (s : string) :
  flush (pre ++ ts, s) reg = pre ++ flush (ts, s) reg.
Proof. unfold flush. cbn [fst snd]. destruct (is_empty s); by rewrite <- ?app_assoc. Qed.

(** White space separates two parts that are tokenized on their own. *)
Lemma devide_to_tokens_space (reg : gmap string (Token T)) (f1 f2 : string)
    (c : ascii) :
  isspace c = true ->
  devide_to_tokens reg (f1 +:+ String c f2)
  = devide_to_tokens reg f1 ++ devide_to_tokens reg f2.
Proof.
  intros Hc. rewrite !devide_to_tokens_flush, list_ascii_app.
  cbn [list_ascii_of_string]. rewrite fold_left_app. cbn [fold_left].
  destruct (fold_left (devide_step reg) (list_ascii_of_string f1) _)
    as [ts1 s1].
  assert (E : devide_step reg (ts1, s1) c = (flush (ts1, s1) reg, EmptyString)).
  { unfold devide_step, flush. rewrite Hc. cbn [fst snd].
    destruct (is_empty s1) eqn:Es; [|done].
    by apply is_empty_spec in Es as ->. }
  rewrite E. rewrite <- (app_nil_r (flush (ts1, s1) reg)) at 1.
  rewrite fold_devide_prefix.
  destruct (fold_left (devide_step reg) (list_ascii_of_string f2) _)
    as [ts2 s2]. cbn [fst snd].
  by rewrite flush_prefix.
Qed.

(** A leading [+]. *)
Lemma plus_token :
  type (Token_of (T:=T) RESERVED_TOKEN "+") = Operator
  /\ is_operator (T:=T) RESERVED_TOKEN "+" = true.
Proof. split; run_pipeline. Qed.

Lemma leading_plus_tokens (f : string) :
  devide_to_tokens (T:=T) RESERVED_TOKEN ("+" +:+ f)
  = Token_of RESERVED_TOKEN "+" :: devide_to_tokens RESERVED_TOKEN f.
Proof.
  rewrite !devide_to_tokens_flush.
  change (list_ascii_of_string ("+" +:+ f))
    with ("+"%char :: list_ascii_of_string f).
  cbn [fold_left].
  change (devide_step RESERVED_TOKEN ([], EmptyString) "+")
    with (@nil (Token T), "+").
  destruct (list_ascii_of_string f) as [|c l]; [done|].
  cbn [fold_left].
  assert (E : devide_step (T:=T) RESERVED_TOKEN ([], "+") c
              = ([Token_of RESERVED_TOKEN "+"] ++
                   (devide_step RESERVED_TOKEN ([], EmptyString) c).1,
                 (devide_step RESERVED_TOKEN ([], EmptyString) c).2)).
  { unfold devide_step. destruct (isspace c); [done|].
    cbn [is_empty].
    rewrite (operator_append_false "+" c) by done.
    rewrite (proj2 plus_token). cbn [orb fst snd]. done. }
  rewrite E. destruct (devide_step RESERVED_TOKEN ([], EmptyString) c)
    as [ts s]. cbn [fst snd].
  rewrite fold_devide_prefix.
  destruct (fold_left _ _ _) as [ts' s']. cbn [fst snd].
  by rewrite flush_prefix.
Qed.

Lemma leading_plus_rpn (f : string) :
  make_rpn (T:=T) RESERVED_TOKEN ("+" +:+ f) = make_rpn RESERVED_TOKEN f.
Proof.
  unfold make_rpn. rewrite leading_plus_tokens.
  rewrite flag_after_Operator by apply plus_token.
  rewrite unary_plus_dropped by apply Token_of_str. done.
Qed.

End Compose.

(** ** Evaluation, the registry and the table *)

Section More.
Context {T : Type} {M : MathConcept T}.

(** *** Evaluation *)

Lemma pushed_names_cons (f : CompiledFunc T) (ops : list (CompiledFunc T)) :
  pushed_names ops ⊆ pushed_names (f :: ops).
Proof.
  unfold pushed_names. cbn [omap list_omap].
  destruct f; cbn [list_to_set]; [apply union_subseteq_r|done..].
Qed.

Lemma run_agree (ops : list (CompiledFunc T)) (tbl1 tbl2 : gmap string T) :
  (forall s, s ∈ pushed_names ops -> tbl1 !! s = tbl2 !! s) ->
  forall stack, run ops stack tbl1 = run ops stack tbl2.
Proof.
  induction ops as [|f ops IH]; intros H stack; [done|].
  cbn [run].
  assert (Hc : call f stack tbl1 = call f stack tbl2).
  { destruct f as [t|t|t]; [|done..]. cbn [call].
    unfold VariableTable_at, map_at. rewrite (H (str t)); [done|].
    unfold pushed_names. cbn [omap list_omap list_to_set].
    apply elem_of_union_l. by apply elem_of_singleton. }
  rewrite Hc. destruct (call f stack tbl2) as [s| |]; [|done..].
  cbn. apply IH. intros x Hx. apply H. by apply pushed_names_cons.
Qed.

Lemma closure_agree (ops : list (CompiledFunc T)) (Table1 Table2 : gmap string T)
    (x : string) (v : T) :
  (forall s, s ∈ pushed_names ops -> s ≠ x -> Table1 !! s = Table2 !! s) ->
  ret_func_closure Table1 ops x v = ret_func_closure Table2 ops x v.
Proof.
  intros H. unfold ret_func_closure, VariableTable_add.
  rewrite (run_agree ops (<[x:=v]> Table1) (<[x:=v]> Table2)); [done|].
  intros s Hs. destruct (decide (s = x)) as [->|Hne].
  - by rewrite !lookup_insert_eq.
  - rewrite !lookup_insert_ne by done. by apply H.
Qed.

(** *** The arguments of an operation *)

Lemma pop_args_pushed (args acc stack : list T) :
  pop_args (length args) (rev args ++ stack) acc = Ok (args ++ acc, stack).
Proof.
  revert acc. induction args as [|a args IH] using rev_ind; intros acc; [done|].
  rewrite rev_unit, length_app. cbn [length]. rewrite Nat.add_1_r.
  cbn [app pop_args]. rewrite IH. by rewrite <- app_assoc.
Qed.

Lemma call_apply_pushed (t : Token T) (f : Func T) (args stack : list T)
    (tbl : gmap string T) :
  func t = Some f -> arg_num t = Z.of_nat (length args) ->
  call (apply_func t) (rev args ++ stack) tbl = Ok (f args :: stack).
Proof.
  intros Hf Hn. cbn [call]. rewrite Hn.
  destruct (Z.ltb_spec (Z.of_nat (length args)) 0) as [?|_]; [lia|].
  rewrite Nat2Z.id, pop_args_pushed, app_nil_r. cbn. by rewrite Hf.
Qed.

(** *** The registry *)

Lemma add_custom_function_keeps (reg : gmap string (Token T)) (k : string)
    (t : Token T) (name : string) (ty : TokenType) (n : Z)
    (lambda : option (Func T)) :
  reg !! k = Some t -> add_custom_function reg name ty n lambda !! k = Some t.
Proof.
  intros Hk. unfold add_custom_function.
  destruct (decide (name = k)) as [->|Hne].
  - by rewrite (map_insert_new_present _ _ t).
  - by rewrite map_insert_new_other.
Qed.

Lemma register_all_keeps (calls : list (string * TokenType * Z * option (Func T)))
    (reg : gmap string (Token T)) (k : string) (t : Token T) :
  reg !! k = Some t -> register_all reg calls !! k = Some t.
Proof.
  revert reg. induction calls as [|[[[name ty] n] lambda] calls IH];
    intros reg Hk; [done|].
  cbn [register_all fold_left]. apply IH. by apply add_custom_function_keeps.
Qed.

(** *** VariableTable *)

Lemma VariableTable_of_snoc (pairs : list (string * T)) (k : string) (v : T) :
  VariableTable_of (pairs ++ [(k, v)]) = <[k := v]> (VariableTable_of pairs).
Proof. unfold VariableTable_of. by rewrite fold_left_app. Qed.

Lemma VariableTable_of_last (pairs rest : list (string * T)) (k : string) (v : T) :
  k ∉ map fst rest ->
  VariableTable_at (VariableTable_of (pairs ++ (k, v) :: rest)) k = Ok v.
Proof.
  intros Hk. unfold VariableTable_at, map_at.
  assert (E : VariableTable_of (pairs ++ (k, v) :: rest) !! k = Some v).
  { induction rest as [|[k' v'] rest IH] using rev_ind.
    - rewrite VariableTable_of_snoc. apply lookup_insert_eq.
    - rewrite app_comm_cons, app_assoc, VariableTable_of_snoc.
      rewrite map_app in Hk. cbn in Hk.
      rewrite lookup_insert_ne.
      + apply IH. intros Hin. apply Hk. apply elem_of_app. by left.
      + intros ->. apply Hk. apply elem_of_app. right. apply list_elem_of_singleton; reflexivity. }
  by rewrite E.
Qed.

Lemma VariableTable_at_contains (table : gmap string T) (s : string) :
  (VariableTable_contains table s = true <-> exists v, VariableTable_at table s = Ok v)
  /\ (VariableTable_contains table s = false <-> VariableTable_at table s = Throw out_of_range).
Proof.
  unfold VariableTable_contains, VariableTable_at, map_at.
  destruct (table !! s) as [v|] eqn:E.
  - rewrite bool_decide_eq_true_2 by done. split; split; try done. by eauto.
  - rewrite bool_decide_eq_false_2 by (by apply is_Some_None).
    split; split; try done. by intros [? ?].
Qed.

Lemma VariableTable_index_spec (init : T) (table : gmap string T) (s : string) :
  VariableTable_at (VariableTable_index init table s).2 s
  = Ok (VariableTable_index init table s).1
  /\ VariableTable_contains (VariableTable_index init table s).2 s = true
  /\ (VariableTable_index init table s).1 = default init (table !! s)
  /\ (VariableTable_index init table s).2
     = match table !! s with Some _ => table | None => <[s := init]> table end.
Proof.
  unfold VariableTable_index, VariableTable_at, VariableTable_contains, map_at.
  destruct (table !! s) as [v|] eqn:E; cbn [fst snd].
  - rewrite E. by rewrite bool_decide_eq_true_2.
  - rewrite lookup_insert_eq. by rewrite bool_decide_eq_true_2.
Qed.

(** *** parse and the table *)

Lemma parse_table (reg : gmap string (Token T)) (h : Syamfp T) (f : string) :
  table (parse reg h f).2 = table h.
Proof.
  unfold parse. destruct (make_rpn reg f) as [rpn| |]; [|done..].
  destruct (is_nil rpn); [done|].
  by destruct (compile_RPN rpn (vars h)) as [[c| |] vl].
Qed.

Lemma parse_with_table (reg : gmap string (Token T)) (h : Syamfp T) (f : string)
    (tbl : gmap string T) :
  table (parse_with reg h f tbl).2 = tbl
  /\ (parse_with reg h f tbl).1 = (parse reg h f).1
  /\ crpn (parse_with reg h f tbl).2 = crpn (parse reg h f).2
  /\ vars (parse_with reg h f tbl).2 = vars (parse reg h f).2
  /\ formula (parse_with reg h f tbl).2 = formula (parse reg h f).2.
Proof.
  unfold parse_with. split; [by rewrite parse_table|].
  unfold parse. cbn [formula table vars crpn].
  destruct (make_rpn reg f) as [rpn| |]; [|done..].
  destruct (is_nil rpn); [done|].
  unfold compile_RPN.
  by destruct (compile_loop rpn 0 [] ∅) as [[c| |] vl].
Qed.

(** *** Exceptions of the converter *)

Lemma make_rpn_throw_parse (reg : gmap string (Token T)) (h : Syamfp T)
    (f : string) (e : exn) :
  make_rpn reg f = Throw e -> parse reg h f = (Throw e, h).
Proof. intros E. unfold parse. by rewrite E. Qed.

End More.

(** ** Further properties of the scanner *)

(** X1: whatever the registry holds, the scanner keeps every character of
    the formula that is not white space, in order, and adds none: the texts
    of the tokens, put end to end, are the formula without its white space.
    No token has an empty text or a text with white space in it, and every
    token is the one [Token(str)] builds from its text. *)
Theorem X1_scanner_keeps_characters :
  forall T (M : MathConcept T) (reg : gmap string (Token T)) (formula : string),
    chars_of (devide_to_tokens reg formula) = squeezed formula
    /\ Forall (fun t => text_ok (str t)) (devide_to_tokens reg formula)
    /\ Forall (fun t => t = Token_of reg (str t)) (devide_to_tokens reg formula).
Proof.
  intros T M reg formula. split; [apply devide_to_tokens_chars|].
  split; [apply devide_to_tokens_texts|apply devide_to_tokens_built].
Qed.

(** X2: a formula made of white space only (the empty formula included)
    has no token; [make_rpn] answers [BAD_RPNs] and [parse] returns
    [-EINVAL] and leaves the handle as it was, whatever the registry. *)
Theorem X2_blank_formula_rejected :
  forall T (M : MathConcept T) (reg : gmap string (Token T)) (h : Syamfp T)
         (formula : string),
    forallb isspace (list_ascii_of_string formula) = true ->
    devide_to_tokens reg formula = []
    /\ make_rpn reg formula = Ok BAD_RPNs
    /\ parse reg h formula = (Ok (- EINVAL), h).
Proof.
  intros T M reg h formula Hb. split; [by apply blank_formula_tokens|].
  by apply blank_formula_parse.
Qed.

Lemma X2_witness :
  let M := Cx.math (fun _ => 0%R) 0%Q in
  forallb isspace (list_ascii_of_string "  ") = true
  /\ parse RESERVED_TOKEN Syamfp_default "  " = (Ok (- EINVAL), Syamfp_default).
Proof.
  intros M.
  assert (Hb : forallb isspace (list_ascii_of_string "  ") = true) by reflexivity.
  split; [exact Hb|].
  exact (proj2 (proj2 (X2_blank_formula_rejected _ M RESERVED_TOKEN
                         Syamfp_default "  " Hb))).
Defined.

(** X3: a white-space character ends the token before it and takes no
    part in the token after it: the tokens of a formula with a white-space
    character in it are the tokens of the part before followed by the
    tokens of the part after, whatever the registry. *)
Theorem X3_white_space_separates :
  forall T (M : MathConcept T) (reg : gmap string (Token T)) (f1 f2 : string)
         (c : ascii),
    isspace c = true ->
    devide_to_tokens reg (f1 +:+ String c f2)
    = devide_to_tokens reg f1 ++ devide_to_tokens reg f2.
Proof. intros T M reg f1 f2 c Hc. by apply devide_to_tokens_space. Qed.

Lemma X3_witness :
  let M := Cx.math (fun _ => 0%R) 0%Q in
  isspace " " = true
  /\ devide_to_tokens RESERVED_TOKEN "si n"
     = devide_to_tokens RESERVED_TOKEN "si" ++ devide_to_tokens RESERVED_TOKEN "n".
Proof.
  intros M.
  assert (Hc : isspace " " = true) by reflexivity.
  split; [exact Hc|].
  exact (X3_white_space_separates _ M RESERVED_TOKEN "si" "n" " "%char Hc).
Defined.

(** X4: under the built-in registry the scanner's operator test holds
    exactly for the eight one-character symbols + - * / ^ ( ) and the
    comma, and each of them is a token of its own: a token whose text is
    longer than one character holds none of them. *)
Theorem X4_punctuation_stands_alone :
  forall T (M : MathConcept T) (formula : string),
    Forall (fun t => text_plain (str t))
      (devide_to_tokens (T:=T) RESERVED_TOKEN formula)
    /\ forall s, is_operator (T:=T) RESERVED_TOKEN s = true
                 <-> exists c, s = char_string c /\ is_punct c = true.
Proof.
  intros T M formula. split; [apply devide_to_tokens_plain|].
  intros s. apply is_operator_builtin.
Qed.

(** X5: under the built-in registry a formula that is not empty and holds
    neither white space nor one of the eight symbols is one token, the one
    [Token(str)] builds from the whole text. *)
Theorem X5_identifier_is_one_token :
  forall T (M : MathConcept T) (formula : string),
    formula ≠ EmptyString ->
    forallb (fun c => negb (is_punct c) && negb (isspace c))
      (list_ascii_of_string formula) = true ->
    devide_to_tokens (T:=T) RESERVED_TOKEN formula
    = [Token_of RESERVED_TOKEN formula].
Proof. intros T M formula Hne Hc. by apply identifier_one_token. Qed.

Lemma X5_witness :
  let M := Cx.math (fun _ => 0%R) 0%Q in
  "sin2x" ≠ EmptyString
  /\ forallb (fun c => negb (is_punct c) && negb (isspace c))
       (list_ascii_of_string "sin2x") = true
  /\ devide_to_tokens RESERVED_TOKEN "sin2x"
     = [mkToken "sin2x" Variable_ 0 (of_value 0) None].
Proof.
  intros M.
  assert (Hne : "sin2x" ≠ EmptyString) by discriminate.
  assert (Hc : forallb (fun c => negb (is_punct c) && negb (isspace c))
                 (list_ascii_of_string "sin2x") = true) by reflexivity.
  split; [exact Hne|]. split; [exact Hc|].
  rewrite (X5_identifier_is_one_token _ M "sin2x" Hne Hc). reflexivity.
Defined.



(** X7: under the built-in registry the text "e", one or more digits, "i"
    (as in "e5i") matches the pattern of imaginary literals although it has
    no mantissa; [std::from_chars] rejects it, so the token of type
    Imaginary carries the content of the local [val] that was never set. *)
Theorem X7_imaginary_without_mantissa :
  forall T (M : MathConcept T) (d : ascii) (ds : list ascii),
    forallb is_digit (d :: ds) = true ->
    is_imaginary (bare_exponent (d :: ds)) = true
    /\ from_chars (removelast (list_ascii_of_string (bare_exponent (d :: ds))))
       = None
    /\ devide_to_tokens RESERVED_TOKEN (bare_exponent (d :: ds))
       = [mkToken (bare_exponent (d :: ds)) Imaginary 0 (of_imag val_uninit) None].
Proof.
  intros T M d ds Hd.
  split; [by apply bare_exponent_patterns|].
  split; [apply bare_exponent_from_chars|].
  by apply bare_exponent_scan.
Qed.

Lemma X7_witness :
  let M := Cx.math (fun _ => 0%R) 0%Q in
  forallb is_digit ["5"%char] = true
  /\ devide_to_tokens RESERVED_TOKEN "e5i"
     = [mkToken "e5i" Imaginary 0 (of_imag val_uninit) None].
Proof.
  intros M.
  assert (Hd : forallb is_digit ["5"%char] = true) by reflexivity.
  split; [exact Hd|].
  exact (proj2 (proj2 (X7_imaginary_without_mantissa _ M "5"%char [] Hd))).
Defined.

(** ** Further properties of the converter *)

Section Samples.
Context {T : Type} {M : MathConcept T}.

(** The postfix form of "sin(x)" and the handle after parsing "x + y" with
    a table that binds y. *)
Lemma sample_sin_x :
  make_rpn RESERVED_TOKEN "sin(x)"
  = Ok [mkToken "x" Variable_ 0 (of_value 0) None;
        mkToken "sin" Func1 1 (of_value 0) (Some (fn1 m_sin))].
Proof. run_pipeline. Qed.

Lemma sample_parse_x_plus_y :
  parse RESERVED_TOKEN Syamfp_default "x + y" = (Ok 0, parsed_x_plus_y).
Proof.
  unfold parsed_x_plus_y. pose proof parsed_x_plus_y_ok as [E _].
  destruct (parse RESERVED_TOKEN Syamfp_default "x + y") as [r h'].
  cbn [fst snd] in *. by rewrite E.
Qed.

Lemma operator_step_throws (reg : gmap string (Token T))
    (rpn stack : list (Token T)) (top token : Token T) :
  type top = Operator ->
  PRECED !! str top = None \/ PRECED !! str token = None ->
  case_of_Operator reg rpn (top :: stack) token false = Throw out_of_range.
Proof.
  intros Htop Hp. unfold case_of_Operator. cbn [andb pop_operators].
  rewrite bool_decide_eq_false_2 by (intros H; by apply H).
  unfold ret_preced, map_at.
  destruct (PRECED !! str token) as [pt|] eqn:Et; [|done].
  destruct Hp as [Hp|Hp]; [|done]. by rewrite Hp.
Qed.

Lemma unknown_operator_rpn (reg : gmap string (Token T))
    (a op1 b op2 : Token T) (rest : list (Token T)) :
  is_operand a = true -> is_operand b = true ->
  type op1 = Operator -> type op2 = Operator ->
  PRECED !! str op1 = None \/ PRECED !! str op2 = None ->
  make_rpn_loop reg (a :: op1 :: b :: op2 :: rest) [] [] true
  = Throw out_of_range.
Proof.
  intros Ha Hb H1 H2 Hp.
  assert (Step : forall (t : Token T) tokens rpn stack prev,
             is_operand t = true ->
             make_rpn_loop reg (t :: tokens) rpn stack prev
             = make_rpn_loop reg tokens (rpn ++ [t]) stack false).
  { intros t tokens rpn stack prev Ht. cbn [make_rpn_loop].
    unfold is_operand in Ht. by destruct (type t). }
  rewrite (Step a) by done. cbn [make_rpn_loop]. rewrite H1.
  unfold case_of_Operator at 1. cbn [andb pop_operators]. cbv beta iota.
  change (make_rpn_loop reg (b :: op2 :: rest) ([] ++ [a]) [op1] true
          = Throw out_of_range).
  rewrite (Step b) by done. cbn [make_rpn_loop]. rewrite H2.
  by rewrite (operator_step_throws reg _ [] op1 op2 H1 Hp).
Qed.

End Samples.

(** X8: under the built-in registry a plus sign at the very start of a
    formula is dropped: the formula and the formula without it have the
    same postfix form (and the same failure, if any). *)
Theorem X8_leading_plus_is_dropped :
  forall T (M : MathConcept T) (f : string),
    make_rpn (T:=T) RESERVED_TOKEN ("+" +:+ f) = make_rpn RESERVED_TOKEN f.
Proof. intros T M f. apply leading_plus_rpn. Qed.

(** X9: the handlers of the right parenthesis and of the comma never read
    an empty stack, whatever the stack holds: both return, and the flag
    they return tells whether the stack held the left-parenthesis token. *)
Theorem X9_guarded_pops_return :
  forall T (M : MathConcept T) (rpn stack : list (Token T)),
    (exists rpn' stack',
        case_of_RParen rpn stack = Ok (has_LParen stack, (rpn', stack')))
    /\ (exists rpn' stack',
        case_of_Comma rpn stack = Ok (has_LParen stack, (rpn', stack'))).
Proof.
  intros T M rpn stack.
  split; [apply case_of_RParen_returns|apply case_of_Comma_returns].
Qed.

(** X10: under the built-in registry [make_rpn] returns on every formula:
    no table lookup throws and no empty stack is read.  [parse] then
    returns 0 or [-EINVAL] on every formula and from every handle. *)
Theorem X10_builtin_parse_always_returns :
  forall T (M : MathConcept T) (h : Syamfp T) (formula : string),
    (exists rpn, make_rpn (T:=T) RESERVED_TOKEN formula = Ok rpn)
    /\ exists code h',
        parse RESERVED_TOKEN h formula = (Ok code, h')
        /\ (code = 0 \/ code = - EINVAL).
Proof.
  intros T M h formula. split; [apply make_rpn_returns|apply parse_returns].
Qed.

(** X11: an operator registered with [add_custom_function] is unknown to
    the precedence table.  When a formula starts operand, operator,
    operand, operator and one of the two operators is not in that table,
    the lookup throws [std::out_of_range]; the exception leaves [make_rpn]
    and [parse] (which catches only what the compiler throws), and the
    handle is as before. *)
Theorem X11_unknown_operator_escapes_parse :
  forall T (M : MathConcept T) (reg : gmap string (Token T)) (h : Syamfp T)
         (formula : string) (a op1 b op2 : Token T) (rest : list (Token T)),
    devide_to_tokens reg formula = a :: op1 :: b :: op2 :: rest ->
    is_operand a = true -> is_operand b = true ->
    type op1 = Operator -> type op2 = Operator ->
    PRECED !! str op1 = None \/ PRECED !! str op2 = None ->
    make_rpn reg formula = Throw out_of_range
    /\ parse reg h formula = (Throw out_of_range, h).
Proof.
  intros T M reg h formula a op1 b op2 rest Htok Ha Hb H1 H2 Hp.
  assert (E : make_rpn reg formula = Throw out_of_range).
  { unfold make_rpn. rewrite Htok. by apply unknown_operator_rpn. }
  split; [exact E|]. by apply make_rpn_throw_parse.
Qed.

Lemma X11_witness :
  let M := Cx.math (fun _ => 0%R) 0%Q in
  let reg := add_custom_function RESERVED_TOKEN "%" Operator 2 (Some (fn2 m_div)) in
  let a := Token_of reg "1" in
  let op1 := Token_of reg "%" in
  let b := Token_of reg "2" in
  let op2 := Token_of reg "+" in
  devide_to_tokens reg "1 % 2 + 3" = [a; op1; b; op2; Token_of reg "3"]
  /\ type op1 = Operator /\ type op2 = Operator
  /\ PRECED !! str op1 = None
  /\ parse reg Syamfp_default "1 % 2 + 3" = (Throw out_of_range, Syamfp_default).
Proof.
  intros M reg a op1 b op2.
  assert (Htok : devide_to_tokens reg "1 % 2 + 3"
                 = [a; op1; b; op2; Token_of reg "3"]) by reflexivity.
  assert (Ha : is_operand a = true) by reflexivity.
  assert (Hb : is_operand b = true) by reflexivity.
  assert (H1 : type op1 = Operator) by reflexivity.
  assert (H2 : type op2 = Operator) by reflexivity.
  assert (Hp : PRECED !! str op1 = None) by reflexivity.
  split; [exact Htok|]. split; [exact H1|]. split; [exact H2|].
  split; [exact Hp|].
  exact (proj2 (X11_unknown_operator_escapes_parse _ M reg Syamfp_default
                  "1 % 2 + 3" a op1 b op2 _ Htok Ha Hb H1 H2 (or_introl Hp))).
Defined.

(** X12: under the built-in registry a formula whose postfix form is not
    [BAD_RPNs] has parentheses that nest: every right parenthesis and
    every comma stands inside an open left parenthesis, and every left
    parenthesis is closed. *)
Theorem X12_accepted_formula_nests :
  forall T (M : MathConcept T) (formula : string) (rpn : list (Token T)),
    make_rpn RESERVED_TOKEN formula = Ok rpn -> rpn ≠ [] ->
    nesting 0 (map type (devide_to_tokens (T:=T) RESERVED_TOKEN formula)) = true.
Proof. intros T M formula rpn Hr Hne. by apply (make_rpn_nesting formula rpn). Qed.

Lemma X12_witness :
  let M := Cx.math (fun _ => 0%R) 0%Q in
  let rpn := [mkToken "x" Variable_ 0 (of_value 0) None;
              mkToken "sin" Func1 1 (of_value 0) (Some (fn1 m_sin))] in
  make_rpn RESERVED_TOKEN "sin(x)" = Ok rpn
  /\ rpn ≠ []
  /\ nesting 0 (map type (devide_to_tokens RESERVED_TOKEN "sin(x)")) = true.
Proof.
  intros M rpn.
  assert (Hr : make_rpn RESERVED_TOKEN "sin(x)" = Ok rpn) by apply sample_sin_x.
  assert (Hne : rpn ≠ []) by discriminate.
  split; [exact Hr|]. split; [exact Hne|].
  exact (X12_accepted_formula_nests _ M "sin(x)" rpn Hr Hne).
Defined.

(** X13: under the built-in registry everything [make_rpn] returns is a
    postfix sequence the compiler can take: it holds no parenthesis and no
    comma, and each of its operators and functions has a behaviour and an
    arity that is not negative. *)
Theorem X13_postfix_form_is_well_formed :
  forall T (M : MathConcept T) (formula : string) (rpn : list (Token T)),
    make_rpn RESERVED_TOKEN formula = Ok rpn ->
    well_formed rpn = true
    /\ Forall (fun t => type t ≠ LParen /\ type t ≠ RParen /\ type t ≠ Comma) rpn.
Proof.
  intros T M formula rpn Hr.
  pose proof (make_rpn_well_formed formula rpn Hr) as Hw.
  split; [exact Hw|].
  unfold well_formed, postfix_sequence in Hw.
  apply andb_true_iff in Hw as [Hp _].
  apply Forall_forall. intros t Ht.
  rewrite forallb_forall in Hp. specialize (Hp t).
  assert (Hin : In t rpn) by (by apply list_elem_of_In).
  specialize (Hp Hin). unfold is_operand, is_applied in Hp.
  by destruct (type t).
Qed.

Lemma X13_witness :
  let M := Cx.math (fun _ => 0%R) 0%Q in
  let rpn := [mkToken "x" Variable_ 0 (of_value 0) None;
              mkToken "sin" Func1 1 (of_value 0) (Some (fn1 m_sin))] in
  make_rpn RESERVED_TOKEN "sin(x)" = Ok rpn /\ well_formed rpn = true.
Proof.
  intros M rpn.
  assert (Hr : make_rpn RESERVED_TOKEN "sin(x)" = Ok rpn) by apply sample_sin_x.
  split; [exact Hr|].
  exact (proj1 (X13_postfix_form_is_well_formed _ M "sin(x)" rpn Hr)).
Defined.

(** ** Further properties of the handle *)

(** X14: under the built-in registry, when [parse] returns 0 the handle
    holds the formula, the table it had before, one operation per token of
    the postfix form, and as its variable list exactly the texts of the
    tokens of type Variable the scanner produced. *)
Theorem X14_successful_parse_state :
  forall T (M : MathConcept T) (h h' : Syamfp T) (f : string),
    parse RESERVED_TOKEN h f = (Ok 0, h') ->
    exists rpn,
      make_rpn RESERVED_TOKEN f = Ok rpn
      /\ rpn ≠ []
      /\ formula h' = f
      /\ table h' = table h
      /\ crpn h' = map operation_of rpn
      /\ vars h' = variables_of (devide_to_tokens RESERVED_TOKEN f).
Proof. intros T M h h' f Hp. by apply parse_success_state. Qed.

Lemma X14_witness :
  let M := Cx.math (fun _ => 0%R) 0%Q in
  parse RESERVED_TOKEN Syamfp_default "x + y" = (Ok 0, parsed_x_plus_y)
  /\ formula parsed_x_plus_y = "x + y"
  /\ vars parsed_x_plus_y = variables_of (devide_to_tokens RESERVED_TOKEN "x + y").
Proof.
  intros M.
  assert (Hp : parse RESERVED_TOKEN Syamfp_default "x + y"
               = (Ok 0, parsed_x_plus_y)) by apply sample_parse_x_plus_y.
  split; [exact Hp|].
  destruct (X14_successful_parse_state _ M Syamfp_default parsed_x_plus_y
              "x + y" Hp) as (rpn & _ & _ & Hf & _ & _ & Hv).
  split; [exact Hf|exact Hv].
Defined.

(** X15: under the built-in registry, after [parse] has returned 0 and
    [ret_func] has returned a function, every call of the function returns
    a value: the run of the operations of the postfix form over the table
    with the argument bound ends with exactly that value on the stack; no
    operation pops an empty stack and no variable is missing. *)
Theorem X15_parsed_function_returns :
  forall T (M : MathConcept T) (h h' : Syamfp T) (f x : string)
         (g : T -> result T) (v : T),
    parse RESERVED_TOKEN h f = (Ok 0, h') ->
    ret_func h' x = Ok g ->
    exists rpn r,
      make_rpn RESERVED_TOKEN f = Ok rpn
      /\ run (map operation_of rpn) [] (<[x := v]> (table h)) = Ok [r]
      /\ g v = Ok r.
Proof.
  intros T M h h' f x g v Hp Hg.
  destruct (parse_success_state h h' f Hp)
    as (rpn & Hr & Hne & _ & Htab & Hc & Hv).
  pose proof (make_rpn_well_formed f rpn Hr) as Hw.
  apply ret_func_no_unbound in Hg as [-> Hdom].
  assert (Hcomp : compile_RPN rpn (vars h) = (Ok (crpn h'), vars h')).
  { revert Hp. unfold parse. rewrite Hr.
    destruct (is_nil rpn); [done|].
    destruct (compile_RPN rpn (vars h)) as [[c| |] vl]; [|done..].
    by intros [= <-]. }
  destruct (run_compiled rpn (vars h) (crpn h') (vars h')
              (<[x := v]> (table h')) Hw Hcomp (Hdom v)) as [r Hrun].
  exists rpn, r. split; [exact Hr|]. rewrite <- Hc, <- Htab.
  split; [exact Hrun|].
  unfold ret_func_closure, VariableTable_add. by rewrite Hrun.
Qed.

Lemma X15_witness :
  let M := Cx.math (fun _ => 0%R) 0%Q in
  let h := Syamfp_new "" {[ "y" := Cx.of_R 1 ]} in
  let h' := (parse RESERVED_TOKEN h "x + y").2 in
  let g := ret_func_closure (table h') (crpn h') "x" in
  parse RESERVED_TOKEN h "x + y" = (Ok 0, h')
  /\ ret_func h' "x" = Ok g
  /\ exists r, g (Cx.of_R 2) = Ok r.
Proof.
  intros M h h' g.
  assert (Hp : parse RESERVED_TOKEN h "x + y" = (Ok 0, h')) by reflexivity.
  assert (Hg : ret_func h' "x" = Ok g) by reflexivity.
  split; [exact Hp|]. split; [exact Hg|].
  destruct (X15_parsed_function_returns _ M h h' "x + y" "x" g (Cx.of_R 2) Hp Hg)
    as (rpn & r & _ & _ & Hr).
  by exists r.
Defined.

(** X16: [parse] never changes the table of the handle, whatever it
    returns.  The overload that takes a table installs it before it
    parses, so the new table stays even when the formula is rejected;
    everything else is as [parse] on the formula alone leaves it. *)
Theorem X16_parse_and_the_table :
  forall T (M : MathConcept T) (reg : gmap string (Token T)) (h : Syamfp T)
         (f : string) (tbl : gmap string T),
    table (parse reg h f).2 = table h
    /\ table (parse_with reg h f tbl).2 = tbl
    /\ (parse_with reg h f tbl).1 = (parse reg h f).1
    /\ crpn (parse_with reg h f tbl).2 = crpn (parse reg h f).2
    /\ vars (parse_with reg h f tbl).2 = vars (parse reg h f).2
    /\ formula (parse_with reg h f tbl).2 = formula (parse reg h f).2.
Proof.
  intros T M reg h f tbl. split; [apply parse_table|apply parse_with_table].
Qed.

(** ** Further properties of the evaluation *)

(** X17: a run reads the table only at the names of its variable
    operations: two tables that agree on those names give the same run
    from every stack, and the same result of the function [ret_func]
    builds. *)
Theorem X17_run_reads_only_its_variables :
  forall T (M : MathConcept T) (ops : list (CompiledFunc T))
         (tbl1 tbl2 : gmap string T),
    (forall s, s ∈ pushed_names ops -> tbl1 !! s = tbl2 !! s) ->
    (forall stack, run ops stack tbl1 = run ops stack tbl2)
    /\ forall x v, ret_func_closure tbl1 ops x v = ret_func_closure tbl2 ops x v.
Proof.
  intros T M ops tbl1 tbl2 H. split; [by apply run_agree|].
  intros x v. apply closure_agree. intros s Hs _. by apply H.
Qed.

Lemma X17_witness :
  let M := Cx.math (fun _ => 0%R) 0%Q in
  let tx := mkToken "x" Variable_ 0 (of_value 0) None in
  let ops := [push_variable tx] in
  let tbl1 : gmap string Cx.C := {[ "x" := Cx.of_R 1 ]} in
  let tbl2 : gmap string Cx.C := <[ "y" := Cx.of_R 2 ]> {[ "x" := Cx.of_R 1 ]} in
  (forall s, s ∈ pushed_names ops -> tbl1 !! s = tbl2 !! s)
  /\ run ops [] tbl1 = run ops [] tbl2.
Proof.
  intros M tx ops tbl1 tbl2.
  assert (H : forall s, s ∈ pushed_names ops -> tbl1 !! s = tbl2 !! s).
  { intros s Hs. unfold pushed_names, ops in Hs.
    cbn [omap list_omap list_to_set] in Hs.
    apply elem_of_union in Hs as [Hs|Hs].
    - apply elem_of_singleton in Hs. subst s. reflexivity.
    - by apply not_elem_of_empty in Hs. }
  split; [exact H|].
  exact (proj1 (X17_run_reads_only_its_variables _ M ops tbl1 tbl2 H) []).
Defined.

(** X18: an operation applied to a stack on which its arguments were
    pushed one after the other takes exactly as many values as its arity
    says, hands them to the behaviour in the order they were pushed, and
    pushes the result on what was below. *)
Theorem X18_apply_takes_pushed_arguments :
  forall T (M : MathConcept T) (t : Token T) (f : Func T)
         (args stack : list T) (tbl : gmap string T),
    func t = Some f ->
    arg_num t = Z.of_nat (length args) ->
    call (apply_func t) (rev args ++ stack) tbl = Ok (f args :: stack).
Proof. intros T M t f args stack tbl Hf Hn. by apply call_apply_pushed. Qed.

Lemma X18_witness :
  let M := Cx.math (fun _ => 0%R) 0%Q in
  let minus := mkToken "-" Operator 2 (of_value 0) (Some (fn2 m_sub)) in
  let a := Cx.of_R 5 in
  let b := Cx.of_R 3 in
  let c := Cx.of_R 7 in
  func minus = Some (fn2 m_sub)
  /\ arg_num minus = Z.of_nat (length [a; b])
  /\ call (apply_func minus) [b; a; c] ∅ = Ok [Cx.sub a b; c].
Proof.
  intros M minus a b c.
  assert (Hf : func minus = Some (fn2 m_sub)) by reflexivity.
  assert (Hn : arg_num minus = Z.of_nat (length [a; b])) by reflexivity.
  split; [exact Hf|]. split; [exact Hn|].
  exact (X18_apply_takes_pushed_arguments _ M minus (fn2 m_sub) [a; b] [c] ∅ Hf Hn).
Defined.

(** ** Further properties of the registry and of VariableTable *)

(** X19: no series of calls of [add_custom_function] replaces or removes
    an entry: a name that is registered keeps its entry, and the token
    built from that name stays the same. *)
Theorem X19_registered_entries_stay :
  forall T (M : MathConcept T) (reg : gmap string (Token T))
         (calls : list (string * TokenType * Z * option (Func T)))
         (k : string) (t : Token T),
    reg !! k = Some t ->
    register_all reg calls !! k = Some t
    /\ Token_of (register_all reg calls) k = Token_of reg k.
Proof.
  intros T M reg calls k t Hk.
  pose proof (register_all_keeps calls reg k t Hk) as H.
  split; [exact H|]. unfold Token_of. by rewrite H, Hk.
Qed.

Lemma X19_witness :
  let M := Cx.math (fun _ => 0%R) 0%Q in
  let t := mkToken "sin" Func1 1 (of_value 0) (Some (fn1 m_sin)) in
  let calls := [("cube", Func1, 1, Some (fn1 m_exp));
                ("sin", Func2, 2, Some (fn2 m_pow))] in
  RESERVED_TOKEN !! "sin" = Some t
  /\ register_all RESERVED_TOKEN calls !! "sin" = Some t.
Proof.
  intros M t calls.
  assert (Hk : RESERVED_TOKEN !! "sin" = Some t) by reflexivity.
  split; [exact Hk|].
  exact (proj1 (X19_registered_entries_stay _ M RESERVED_TOKEN calls "sin" t Hk)).
Defined.

(** X20: the variadic constructor of VariableTable assigns its pairs from
    left to right, so of several values given for one name the last one
    is the one [at] returns. *)
Theorem X20_constructor_last_value_wins :
  forall T (M : MathConcept T) (pairs rest : list (string * T)) (k : string)
         (v : T),
    k ∉ map fst rest ->
    VariableTable_at (VariableTable_of (pairs ++ (k, v) :: rest)) k = Ok v.
Proof. intros T M pairs rest k v Hk. by apply VariableTable_of_last. Qed.

Lemma X20_witness :
  let M := Cx.math (fun _ => 0%R) 0%Q in
  let a := Cx.of_R 1 in
  let b := Cx.of_R 2 in
  ("x" ∉ map fst [("y", a)])
  /\ VariableTable_at (VariableTable_of ([("x", a)] ++ ("x", b) :: [("y", a)])) "x"
     = Ok b.
Proof.
  intros M a b.
  assert (Hk : "x" ∉ map fst [("y", a)]).
  { intros H. apply list_elem_of_singleton in H. discriminate H. }
  split; [exact Hk|].
  exact (X20_constructor_last_value_wins _ M [("x", a)] [("y", a)] "x" b Hk).
Defined.

(** X21: [contains] and [at] agree: [at] returns a value exactly for the
    names [contains] accepts, and throws [std::out_of_range] exactly for
    the others; after [add] the name is contained and [at] returns the
    value added. *)
Theorem X21_contains_and_at_agree :
  forall T (M : MathConcept T) (table : gmap string T) (s : string) (v : T),
    (VariableTable_contains table s = true
     <-> exists w, VariableTable_at table s = Ok w)
    /\ (VariableTable_contains table s = false
        <-> VariableTable_at table s = Throw out_of_range)
    /\ VariableTable_contains (VariableTable_add table s v) s = true
    /\ VariableTable_at (VariableTable_add table s v) s = Ok v.
Proof.
  intros T M table s v.
  destruct (VariableTable_at_contains table s) as [H1 H2].
  split; [exact H1|]. split; [exact H2|].
  unfold VariableTable_contains, VariableTable_at, VariableTable_add, map_at.
  rewrite lookup_insert_eq. by rewrite bool_decide_eq_true_2.
Qed.

(** X22: [operator[]] never throws: it returns the value stored under the
    name, and for a name not in the table it first inserts the
    value-initialised [Type] and returns that.  Afterwards [at] returns
    the same value, a second access returns it again and changes nothing,
    and every other name is as before. *)
Theorem X22_index_inserts_missing_name :
  forall T (M : MathConcept T) (init : T) (table : gmap string T) (s : string),
    (VariableTable_index init table s).1 = default init (table !! s)
    /\ VariableTable_at (VariableTable_index init table s).2 s
       = Ok (VariableTable_index init table s).1
    /\ VariableTable_index init (VariableTable_index init table s).2 s
       = VariableTable_index init table s
    /\ forall s', s' ≠ s ->
        (VariableTable_index init table s).2 !! s' = table !! s'.
Proof.
  intros T M init table s.
  destruct (VariableTable_index_spec init table s) as (Hat & _ & Hv & Ht).
  split; [exact Hv|]. split; [exact Hat|]. split.
  - unfold VariableTable_index at 1.
    unfold VariableTable_at, map_at in Hat.
    destruct (VariableTable_index init table s) as [v t'] eqn:E.
    cbn [fst snd] in *. destruct (t' !! s) as [w|]; [|done].
    by injection Hat as ->.
  - intros s' Hne. rewrite Ht. destruct (table !! s); [done|].
    by rewrite lookup_insert_ne.
Qed.
